(** * react-liverpc: channel naming, the execution pipeline and the
      invalidation fan-out, as a shallow embedding of the TypeScript sources

    - [src/src/get-rpc-channel.ts]: [stableStringify], [getRpcChannelName];
    - [src/src/try-catch.ts]: [tryCatch];
    - [src/unnamed/part_000], class [LiveRPC]: the query and mutation
      executors built by the constructor, [validateParams], [handleRequest];
      the definition types of live-rpc-builder-class.ts.

    The digest [sha256] of crypto-js is a parameter of everything that names
    a channel.  The handlers, predicates and transport functions a caller
    supplies are given by what a call of them comes to: a promise that
    resolves or rejects, or an exception.  A run records its calls to them
    in a log, in the order it makes them; the calls of the tasks of a
    [Promise.all] are recorded task by task, with no order between tasks.

    JavaScript values are modelled by [JsVal].  An object is the list of its
    own properties in creation order, because [Object.keys] and
    [JSON.stringify] observe that order.  Numbers are the integers, printed
    in decimal as [Number.prototype.toString] prints a safe integer, and
    [NaN] and the two infinities; numbers with a fraction are left out.
    Strings are sequences of 8-bit code units. *)

From Stdlib Require Import List String Ascii ZArith NArith Bool Lia.
From Stdlib Require Import Permutation Sorted DecimalString DecimalN.
Import ListNotations.
Local Open Scope string_scope.

(** ** JavaScript values *)

(** The numbers that are not finite. *)
Inductive NonFinite : Type := NaN | Infinity | NegInfinity.

Unset Elimination Schemes.
Inductive JsVal : Type :=
| JUndefined : JsVal
| JNull : JsVal
| JBool (b : bool) : JsVal
| JNum (z : Z) : JsVal
| JNonFinite (n : NonFinite) : JsVal
| JStr (s : string) : JsVal
| JArr (elems : list JsVal) : JsVal
| JObj (props : list (string * JsVal)) : JsVal.
Set Elimination Schemes.

(** Induction over a value gives the hypothesis for every array element and
    every property value. *)
Definition JsVal_induction (P : JsVal -> Prop)
  (Hundef : P JUndefined) (Hnull : P JNull)
  (Hbool : forall b, P (JBool b)) (Hnum : forall z, P (JNum z))
  (Hnonfinite : forall n, P (JNonFinite n))
  (Hstr : forall s, P (JStr s))
  (Harr : forall elems, Forall P elems -> P (JArr elems))
  (Hobj : forall props, Forall (fun kv => P (snd kv)) props -> P (JObj props))
  : forall v, P v :=
  fix go (v : JsVal) : P v :=
    match v with
    | JUndefined => Hundef
    | JNull => Hnull
    | JBool b => Hbool b
    | JNum z => Hnum z
    | JNonFinite n => Hnonfinite n
    | JStr s => Hstr s
    | JArr elems =>
        Harr elems
          ((fix all (l : list JsVal) : Forall P l :=
              match l with
              | [] => Forall_nil P
              | x :: r => Forall_cons x (go x) (all r)
              end) elems)
    | JObj props =>
        Hobj props
          ((fix all (l : list (string * JsVal)) : Forall (fun kv => P (snd kv)) l :=
              match l with
              | [] => Forall_nil _
              | kv :: r => Forall_cons kv (go (snd kv)) (all r)
              end) props)
    end.

(** ** Objects as ordered property lists *)

Section Props.
Context {A : Type}.

(** [o[k]]: the value of own property [k], if any. *)
Fixpoint obj_get (o : list (string * A)) (k : string) : option A :=
  match o with
  | [] => None
  | (k', v) :: r => if String.eqb k' k then Some v else obj_get r k
  end.

(** [o[k] = v]: an existing property keeps its place, a new one is
    created last. *)
Fixpoint obj_set (o : list (string * A)) (k : string) (v : A) : list (string * A) :=
  match o with
  | [] => [(k, v)]
  | (k', v') :: r =>
      if String.eqb k' k then (k', v) :: r else (k', v') :: obj_set r k v
  end.
End Props.

(** An array index is a canonical numeric string of value at most 2^32 - 2
    (ECMAScript, 6.1.7). *)
Definition arrayIndex (k : string) : option N :=
  match NilEmpty.uint_of_string k with
  | Some d =>
      let n := N.of_uint d in
      if String.eqb (NilEmpty.string_of_uint (N.to_uint n)) k && (n <=? 4294967294)%N
      then Some n else None
  | None => None
  end.

(** Insertion sort, standing for [Array.prototype.sort]: on keys that are
    pairwise distinct every sorting algorithm gives the same list. *)
Section Sort.
Context {A : Type} (leb : A -> A -> bool).

Fixpoint insert (x : A) (l : list A) : list A :=
  match l with
  | [] => [x]
  | y :: r => if leb x y then x :: y :: r else y :: insert x r
  end.

Fixpoint sort (l : list A) : list A :=
  match l with
  | [] => []
  | x :: r => insert x (sort r)
  end.
End Sort.

(** The order a boolean comparison decides. *)
Definition holds {A : Type} (leb : A -> A -> bool) (x y : A) : Prop := leb x y = true.

Definition indexLeb (a b : N * string) : bool := (fst a <=? fst b)%N.

Definition indexKeys (ks : list string) : list (N * string) :=
  flat_map (fun k => match arrayIndex k with Some n => [(n, k)] | None => [] end) ks.

Definition nameKeys (ks : list string) : list string :=
  filter (fun k => match arrayIndex k with Some _ => false | None => true end) ks.

(** [Object.keys(o)]: the array indices in ascending numeric order, then the
    other keys in creation order (OrdinaryOwnPropertyKeys). *)
Definition Object_keys {A : Type} (o : list (string * A)) : list string :=
  let ks := map fst o in
  (map snd (sort indexLeb (indexKeys ks)) ++ nameKeys ks)%list.

(** The own properties of an array: one per index, holding the element. *)
Definition indexString (i : nat) : string :=
  NilEmpty.string_of_uint (N.to_uint (N.of_nat i)).

Definition arrayProps {A : Type} (elems : list A) : list (string * A) :=
  combine (map indexString (seq 0 (List.length elems))) elems.

(** ** JSON.stringify pieces *)

Definition dquote : ascii := "034"%char.
Definition backslash : ascii := "092"%char.

Definition hexDigit (n : N) : ascii :=
  if (n <? 10)%N then ascii_of_N (48 + n) else ascii_of_N (87 + n).

(** One code unit inside a JSON string (QuoteJSONString). *)
Definition escapeChar (c : ascii) : string :=
  let n := N_of_ascii c in
  if Ascii.eqb c dquote then String backslash (String dquote "")
  else if Ascii.eqb c backslash then String backslash (String backslash "")
  else if (n =? 8)%N then String backslash "b"
  else if (n =? 9)%N then String backslash "t"
  else if (n =? 10)%N then String backslash "n"
  else if (n =? 12)%N then String backslash "f"
  else if (n =? 13)%N then String backslash "r"
  else if (n <? 32)%N then
    String backslash ("u00" ++ String (hexDigit (n / 16)) (String (hexDigit (n mod 16)) ""))
  else String c "".

Fixpoint escape (s : string) : string :=
  match s with
  | EmptyString => ""
  | String c r => escapeChar c ++ escape r
  end.

Definition QuoteJSONString (s : string) : string :=
  String dquote (escape s ++ String dquote "").

(** [Number::toString] of an integer. *)
Definition Number_toString (z : Z) : string := NilZero.string_of_int (Z.to_int z).

(** [o[k] = v] on an object that was created by [{}] and has been assigned
    to only: the key [__proto__] is the accessor of [Object.prototype], whose
    setter changes the prototype of [o] when [v] is an object or [null] and
    does nothing otherwise; it creates no own property.  Every other key
    becomes an own property, whatever the prototype has become. *)
Definition obj_assign {A : Type} (o : list (string * A)) (k : string) (v : A)
    : list (string * A) :=
  if String.eqb k "__proto__" then o else obj_set o k v.

(** The replacer of [stableStringify], on the own properties of an object or
    an array:
    [Object.keys(value).sort().reduce((sortedObj, key) =>
       { sortedObj[key] = value[key]; return sortedObj }, {})].
    The result is the list of the own properties of [sortedObj], which is
    what [JSON.stringify] goes on with. *)
Definition sortedObj {A : Type} (value : list (string * A)) : list (string * A) :=
  fold_left
    (fun acc key =>
       match obj_get value key with
       | Some v => obj_assign acc key v
       | None => acc
       end)
    (sort String.leb (Object_keys value)) [].

(** SerializeJSONObject without indentation, over properties whose values are
    already serialised; [None] is a value that serialises to [undefined] and
    is left out. *)
Definition members (o : list (string * option string)) : list string :=
  flat_map
    (fun P =>
       match obj_get o P with
       | Some (Some strP) => [QuoteJSONString P ++ ":" ++ strP]
       | _ => []
       end)
    (Object_keys o).

Definition SerializeJSONObject (o : list (string * option string)) : string :=
  match members o with
  | [] => "{}"
  | partial => "{" ++ String.concat "," partial ++ "}"
  end.

(** SerializeJSONProperty with the replacer of [stableStringify] applied to
    every object and array ([typeof value === 'object' && value !== null]
    holds for both).  A number that is not finite is written [null].  The values of the properties are serialised first and
    the replacer then reorders them, which keeps the recursion structural;
    [Serialize_object_replacer_first] and [Serialize_array_replacer_first]
    restate it in the order of the source, replacer first. *)
Fixpoint SerializeJSONProperty (value : JsVal) : option string :=
  match value with
  | JUndefined => None
  | JNull => Some "null"
  | JBool true => Some "true"
  | JBool false => Some "false"
  | JNum z => Some (Number_toString z)
  | JNonFinite _ => Some "null"
  | JStr s => Some (QuoteJSONString s)
  | JArr elems =>
      Some (SerializeJSONObject
              (sortedObj (arrayProps (map SerializeJSONProperty elems))))
  | JObj props =>
      Some (SerializeJSONObject
              (sortedObj (map (fun kv => (fst kv, SerializeJSONProperty (snd kv))) props)))
  end.

Definition JSON_stringify (obj : JsVal) : option string := SerializeJSONProperty obj.

(** [stableStringify] of get-rpc-channel.ts.  [JSON.stringify] gives
    [undefined] only for [undefined], which the first line has taken. *)
Definition stableStringify (obj : JsVal) : string :=
  match obj with
  | JUndefined | JNull => "{}"
  | _ => match JSON_stringify obj with Some s => s | None => "" end
  end.

(** [a ?? b] *)
Definition nullish (a b : JsVal) : JsVal :=
  match a with
  | JUndefined | JNull => b
  | _ => a
  end.

Section Channel.
(** [sha256(s).toString()] of crypto-js: the hexadecimal digest. *)
Variable sha256 : string -> string.

Definition getRpcChannelName (query : string) (params : JsVal) : string :=
  let paramsHash := sha256 (stableStringify (nullish params (JObj []))) in
  "query_" ++ query ++ "_" ++ paramsHash.
End Channel.

(** ** Promises, errors and the calls a run makes *)

(** What a [throw] or a rejected promise carries: hono's [HTTPException], a
    TypeError of the engine, any other [Error] object, or any other value,
    which may be falsy. *)
Inductive JsError : Type :=
| HTTPException (status : nat) (message : string)
| TypeError
| OtherError (message : string)
| ThrownValue (value : JsVal).

(** [ToBoolean] *)
Definition ToBoolean (v : JsVal) : bool :=
  match v with
  | JUndefined | JNull => false
  | JBool b => b
  | JNum z => negb (z =? 0)%Z
  | JNonFinite NaN => false
  | JNonFinite _ => true
  | JStr s => negb (String.eqb s "")
  | JArr _ | JObj _ => true
  end.

(** [if (error)]: every object is truthy. *)
Definition truthy (e : JsError) : bool :=
  match e with
  | ThrownValue v => ToBoolean v
  | _ => true
  end.

(** [error.message], where it is a string.  It is read in the statement that
    follows the validation, which no error reaches
    ([parseParams_validateParams]). *)
Definition error_message (e : JsError) : string :=
  match e with
  | HTTPException _ m => m
  | OtherError m => m
  | ThrownValue (JObj props) =>
      match obj_get props "message" with
      | Some (JStr m) => m
      | _ => ""
      end
  | _ => ""
  end.

(** How a promise settles.  [tryCatch] of try-catch.ts turns it into the
    pair [[data, null]] ([Resolved]) or [[null, error]] ([Rejected]). *)
Inductive Outcome (A : Type) : Type :=
| Resolved (a : A)
| Rejected (e : JsError).
Arguments Resolved {A} a.
Arguments Rejected {A} e.

(** What a call of a function the caller supplies gives: the function returns
    a promise (or a plain value, which [await] treats as a promise resolved
    with it), or it throws before it returns. *)
Inductive Called (A : Type) : Type :=
| Returned (promise : Outcome A)
| Thrown (e : JsError).
Arguments Returned {A} promise.
Arguments Thrown {A} e.
Coercion Returned : Outcome >-> Called.

Inductive OpKind : Type := Query | Mutation.

Definition OpKind_name (t : OpKind) : string :=
  match t with Query => "query" | Mutation => "mutation" end.

(** One element of a [batchBroadcast] call. *)
Record Broadcast : Type := mkBroadcast
  { b_channel : string; b_name : string; b_data : JsVal }.

(** The calls into caller-supplied code, in the order a run makes them.
    [Concurrently] holds the calls of the tasks of one [Promise.all], one
    list per task: the calls of a task are in the order the task makes them,
    and no order is recorded between the calls of two tasks. *)
#[warnings="-register-all"]
Inductive Event : Type :=
| CallAuthorization (type : OpKind) (name : string) (params : JsVal)
| CallHandler (type : OpKind) (name : string) (params : JsVal)
| CallInvalidateParams (mutation query : string)
| CallBroadcast (channel event : string) (data : JsVal)
| CallBatchBroadcast (broadcasts : list Broadcast)
| Concurrently (tasks : list (list Event)).

(** The calls of a log, those of concurrent tasks task after task. *)
Fixpoint calls_of (ev : Event) : list Event :=
  match ev with
  | Concurrently tasks => flat_map (flat_map calls_of) tasks
  | _ => [ev]
  end.

Definition calls (log : list Event) : list Event := flat_map calls_of log.

(** The body of an asynchronous function, or a piece of one: it extends the
    log of calls and completes with a value or throws; the promise of the
    function settles accordingly. *)
Definition M (A : Type) : Type := list Event -> Outcome A * list Event.

Definition ret {A : Type} (a : A) : M A := fun log => (Resolved a, log).

Definition throw {A : Type} (e : JsError) : M A := fun log => (Rejected e, log).

Definition bind {A B : Type} (m : M A) (k : A -> M B) : M B :=
  fun log =>
    match m log with
    | (Resolved a, log') => k a log'
    | (Rejected e, log') => (Rejected e, log')
    end.

(** [await promise] *)
Definition settle {A : Type} (o : Outcome A) : M A := fun log => (o, log).

Definition call (ev : Event) : M unit := fun log => (Resolved tt, (log ++ [ev])%list).

Declare Scope rpc_scope.
Delimit Scope rpc_scope with rpc.
Notation "x <- m ;; k" := (bind m (fun x => k))
  (at level 61, m at next level, right associativity) : rpc_scope.
Notation "m ;;; k" := (bind m (fun _ => k))
  (at level 61, right associativity) : rpc_scope.

(** The call expression [f(...)] of caller-supplied code: the call is
    recorded; what [f] throws is thrown here, before any [tryCatch] that the
    call is an argument of is entered; otherwise the value is the promise
    [f] returned. *)
Definition invoke {A : Type} (ev : Event) (c : Called A) : M (Outcome A) :=
  (call ev ;;;
   match c with
   | Thrown e => throw e
   | Returned promise => ret promise
   end)%rpc.

(** [tryCatch(value)]: awaits [value] and never rejects. *)
Definition tryCatch {A : Type} (value : M A) : M (Outcome A) :=
  fun log => let (r, log') := value log in (Resolved r, log').

(** [const [data, error] = await tryCatch(...); if (error) throw mk(error);]
    followed by a use of [data]: the statements that follow each [tryCatch]
    in the executors.  The test is one of truthiness, so a rejection with a
    falsy value passes it, and [data] is [null] then. *)
Definition orThrow {A : Type} (null : A) (r : Outcome A) (mk : JsError -> JsError)
    : M A :=
  match r with
  | Resolved data => ret data
  | Rejected error => if truthy error then throw (mk error) else ret null
  end.

(** The outcome of [Promise.all]: the values if every promise resolves, and
    otherwise the reason of a promise that rejects.  Where several reject,
    [Promise.all] takes the reason of the one that rejects first, for which
    the first of the list stands: the tasks of the two [Promise.all] that
    the executors await reject with one and the same reason if they reject
    ([recomputeOne_rejects_TypeError], [toBroadcast_one_batch]), and the
    outcome of the third, the fan-out itself, is dropped. *)
Fixpoint allOf {B : Type} (os : list (Outcome B)) : Outcome (list B) :=
  match os with
  | [] => Resolved []
  | o :: r =>
      match o, allOf r with
      | Resolved b, Resolved bs => Resolved (b :: bs)
      | Rejected e, _ => Rejected e
      | Resolved _, Rejected e => Rejected e
      end
  end.

(** The calls of concurrent tasks, as one entry of the log; tasks that make
    no call at all leave the log as it is. *)
Definition concurrently (tasks : list (list Event)) : list Event :=
  if forallb (fun t => match t with [] => true | _ => false end) tasks
  then [] else [Concurrently tasks].

(** [await Promise.all(xs.map(async x => f x))]: every task runs to its end,
    whatever the others do, and its calls are kept apart from theirs. *)
Definition promiseAllMap {A B : Type} (f : A -> M B) (xs : list A) : M (list B) :=
  fun log =>
    let runs := map (fun x => f x []) xs in
    (allOf (map fst runs), (log ++ concurrently (map snd runs))%list).

(** ** Definitions (live-rpc-builder-class.ts) *)

(** The request handed to handlers: hono's [Context], of which the pathname
    of [c.req.url] and the body [{ key, params }] of [c.req.json()] are read.
    [req_key] is the property name [key] stands for, which is [key] itself
    when it is a string. *)
Record Context : Type := mkContext
  { req_pathname : string; req_key : string; req_params : JsVal }.

(** [c.json(object, status)] *)
Record Response : Type := mkResponse { res_status : nat; res_json : JsVal }.

(** What [safeParse] of a zod schema returns: [{ success: true, data }] or
    [{ success: false, error }], the error with its [message] if it has one. *)
Inductive SafeParseReturn : Type :=
| SafeParseSuccess (data : JsVal)
| SafeParseError (message : option string).

Record QueryDef : Type := mkQueryDef
  { q_params : JsVal -> SafeParseReturn;
    query : JsVal -> Context -> Called JsVal;
    q_authorization : option (JsVal -> Context -> Called bool) }.

(** [invalidateQueries] is the list [Object.entries] gives of it. *)
Record MutationDef : Type := mkMutationDef
  { m_params : JsVal -> SafeParseReturn;
    mutation : JsVal -> Context -> Called JsVal;
    m_authorization : option (JsVal -> Context -> Called bool);
    invalidateQueries :
      option (list (string * option (JsVal -> JsVal -> Called JsVal))) }.

Record RPCConfig : Type := mkRPCConfig
  { queries : list (string * QueryDef);
    mutations : list (string * MutationDef) }.

(** [options.socket] *)
Record Socket : Type := mkSocket
  { broadcast : string -> string -> JsVal -> Called unit;
    batchBroadcast : list Broadcast -> Called unit;
    maxBatchSize : option nat }.

(** [s.endsWith(suffix)] *)
Definition endsWith (s suffix : string) : bool :=
  let n := String.length s in
  let m := String.length suffix in
  (m <=? n)%nat && String.eqb (substring (n - m) m s) suffix.

(** One recomputation of the array branch of the fan-out. *)
Record BatchOutcome : Type := mkBatchOutcome
  { bo_success : bool; bo_channel : option string; bo_result : JsVal }.

(** The reducer that builds [toBroadcast]:
    [if (acc.length === 0) acc.push([]);
     acc[acc.length - 1].push({ channel, name: "update", data })]. *)
Definition groupStep (acc : list (list Broadcast)) (b : Broadcast) : list (list Broadcast) :=
  let acc1 := if (List.length acc =? 0)%nat then (acc ++ [[]])%list else acc in
  (removelast acc1 ++ [(last acc1 [] ++ [b])%list])%list.

Definition toBroadcast (broadcasts : list BatchOutcome) : list (list Broadcast) :=
  fold_left groupStep
    (flat_map
       (fun b =>
          match bo_success b, bo_channel b with
          | true, Some channel => [mkBroadcast channel "update" (bo_result b)]
          | _, _ => []
          end)
       broadcasts)
    [].

(** ** What an object created by [{}] inherits *)

(** The names of the properties of [Object.prototype] (ECMAScript 20.1.3 and
    B.2.2). *)
Definition Object_prototype_names : list string :=
  ["constructor"; "hasOwnProperty"; "isPrototypeOf"; "propertyIsEnumerable";
   "toLocaleString"; "toString"; "valueOf"; "__proto__";
   "__defineGetter__"; "__defineSetter__"; "__lookupGetter__"; "__lookupSetter__"].

Definition inherited (key : string) : bool :=
  existsb (String.eqb key) Object_prototype_names.

(** [f(params, c)] for [f] the property [key] of [Object.prototype], called
    as a plain function, so with [this] undefined.  [toString] answers for
    [undefined]; [Object] returns its argument as an object, a new one for
    [undefined] and [null] (a primitive is wrapped, and read back as itself
    where the result is written as JSON); [isPrototypeOf] answers [false] for
    an argument that is not an object before it looks at [this]; the others
    convert [this] to an object, and [__proto__] is the prototype object and
    not a function: a TypeError. *)
Definition Object_prototype_call (key : string) (params : JsVal) : Called JsVal :=
  if String.eqb key "toString" then Resolved (JStr "[object Undefined]")
  else if String.eqb key "constructor" then Resolved (nullish params (JObj []))
  else if String.eqb key "isPrototypeOf" then
    match params with
    | JArr _ | JObj _ => Thrown TypeError
    | _ => Resolved (JBool false)
    end
  else Thrown TypeError.

(** ** class LiveRPC *)

Section LiveRPC.
Local Open Scope rpc_scope.

(** [sha256(s).toString()] of crypto-js, and the constructor's [options]. *)
Variable sha256 : string -> string.
Variable socket : Socket.
Variable config : RPCConfig.

(** [if (!options.socket.maxBatchSize) options.socket.maxBatchSize = 10]:
    the constructor sets it, and nothing reads it afterwards. *)
Definition effectiveMaxBatchSize : nat :=
  match maxBatchSize socket with
  | None | Some O => 10
  | Some n => n
  end.

(** [validateParams(type, key, params)]: synchronous, so what it throws
    leaves the executor before [tryCatch] is entered. *)
Definition validateParams (type : OpKind) (key : string) (params : JsVal) : M JsVal :=
  let def :=
    match type with
    | Query => option_map q_params (obj_get (queries config) key)
    | Mutation => option_map m_params (obj_get (mutations config) key)
    end in
  match def with
  | None => throw (HTTPException 400 ("Unknown " ++ OpKind_name type ++ ": " ++ key))
  | Some safeParse =>
      match safeParse params with
      | SafeParseError message =>
          throw (HTTPException 400
                   (match message with Some m => m | None => "Invalid params" end))
      | SafeParseSuccess data => ret data
      end
  end.

(** The first two statements of every executor. *)
Definition parseParams (type : OpKind) (name : string) (params : JsVal) : M JsVal :=
  v <- validateParams type name params ;;
  r <- tryCatch (ret v) ;;
  orThrow JNull r (fun parsedError => HTTPException 400 (error_message parsedError)).

(** [if (withAuth && def.authorization) { ... if (error) throw 401 }]: the
    value the predicate resolves to is bound and not read. *)
Definition authorize (type : OpKind) (name : string)
    (authorization : option (JsVal -> Context -> Called bool))
    (parsed : JsVal) (request : Context) (withAuth : bool) : M unit :=
  match withAuth, authorization with
  | true, Some authz =>
      promise <- invoke (CallAuthorization type name parsed) (authz parsed request) ;;
      r <- tryCatch (settle promise) ;;
      _ <- orThrow false r (fun _ => HTTPException 401 "Unauthorized") ;;
      ret tt
  | _, _ => ret tt
  end.

(** [const [result, error] = await tryCatch(handler(parsed, request));
     if (error) throw error;] *)
Definition runHandler (type : OpKind) (name : string)
    (handler : JsVal -> Context -> Called JsVal)
    (parsed : JsVal) (request : Context) : M JsVal :=
  promise <- invoke (CallHandler type name parsed) (handler parsed request) ;;
  r <- tryCatch (settle promise) ;;
  orThrow JNull r (fun error => error).

(** [const [, errorBroadcast] = await tryCatch(options.socket.broadcast(...));
     if (errorBroadcast) throw new HTTPException(500, ...)] *)
Definition socketBroadcast (channel event : string) (data : JsVal) : M unit :=
  promise <- invoke (CallBroadcast channel event data)
               (broadcast socket channel event data) ;;
  r <- tryCatch (settle promise) ;;
  orThrow tt r (fun _ => HTTPException 500 "Failed to broadcast update").

(** [this.queries[name]]: [fn], [fn.invalidate], [fn.batchInvalidate]. *)
Definition queryFn (name : string) (def : QueryDef)
    (params : JsVal) (request : Context) (withAuth : bool) : M JsVal :=
  parsed <- parseParams Query name params ;;
  authorize Query name (q_authorization def) parsed request withAuth ;;;
  runHandler Query name (query def) parsed request.

Definition invalidate (name : string) (def : QueryDef)
    (params : JsVal) (request : Context) : M JsVal :=
  parsed <- parseParams Query name params ;;
  result <- runHandler Query name (query def) parsed request ;;
  let channel := getRpcChannelName sha256 name parsed in
  socketBroadcast channel "update" result ;;;
  ret result.

Definition batchInvalidate (name : string) (def : QueryDef)
    (params : JsVal) (request : Context) : M (JsVal * string) :=
  parsed <- parseParams Query name params ;;
  result <- runHandler Query name (query def) parsed request ;;
  let channel := getRpcChannelName sha256 name parsed in
  socketBroadcast channel "update" result ;;;
  ret (result, channel).

(** [this.queries[queryName]] followed by the member access [.invalidate] or
    [.batchInvalidate] and its call: for a name that is not registered the
    access or the call throws a TypeError, while the argument of [tryCatch]
    is being evaluated (no property of [Object.prototype] has such a
    member). *)
Definition registeredQuery (queryName : string) : M QueryDef :=
  match obj_get (queries config) queryName with
  | Some def => ret def
  | None => throw TypeError
  end.

(** One element of the array branch:
    [const [data, error] = await tryCatch(...batchInvalidate(queryParam, request));
     if (error) { allSuccess = false; return { success: false, ... } }
     return { success: true, channel: data.channel, result: data.result }];
    after a rejection with a falsy value [data] is [null] and [data.channel]
    throws. *)
Definition recomputeOne (queryName : string) (request : Context)
    (queryParam : JsVal) : M BatchOutcome :=
  def <- registeredQuery queryName ;;
  r <- tryCatch (batchInvalidate queryName def queryParam request) ;;
  match r with
  | Resolved data => ret (mkBatchOutcome true (Some (snd data)) (fst data))
  | Rejected error =>
      if truthy error then ret (mkBatchOutcome false None JNull)
      else throw TypeError
  end.

(** One batch:
    [const [, error] = await tryCatch(options.socket.batchBroadcast(broadcastBatch));
     if (error) allBroadcastSuccess = false],
    giving whether it counts as sent. *)
Definition dispatchBatch (broadcastBatch : list Broadcast) : M bool :=
  promise <- invoke (CallBatchBroadcast broadcastBatch)
               (batchBroadcast socket broadcastBatch) ;;
  r <- tryCatch (settle promise) ;;
  match r with
  | Resolved _ => ret true
  | Rejected error => ret (negb (truthy error))
  end.

(** The task of one entry of [def.invalidateQueries]. *)
Definition invalidateEntry (mutationName : string) (parsed result : JsVal)
    (request : Context)
    (entry : string * option (JsVal -> JsVal -> Called JsVal)) : M unit :=
  let queryName := fst entry in
  match snd entry with
  | None => ret tt
  | Some invalidateParamsFn =>
      promise <- invoke (CallInvalidateParams mutationName queryName)
                   (invalidateParamsFn parsed result) ;;
      r <- tryCatch (settle promise) ;;
      queryParams <- orThrow JNull r
                       (fun _ => HTTPException 500 "Failed to invalidate query") ;;
      match queryParams with
      | JArr elems =>
          broadcasts <- promiseAllMap (recomputeOne queryName request) elems ;;
          let allSuccess := forallb bo_success broadcasts in
          sent <- promiseAllMap dispatchBatch (toBroadcast broadcasts) ;;
          let allBroadcastSuccess := forallb (fun ok => ok) sent in
          if negb allSuccess
          then throw (HTTPException 500 "Failed to invalidate some queries")
          else if negb allBroadcastSuccess
          then throw (HTTPException 500 "Failed to broadcast some updates")
          else ret tt
      | _ =>
          def <- registeredQuery queryName ;;
          r <- tryCatch (invalidate queryName def queryParams request) ;;
          _ <- orThrow JNull r (fun error => error) ;;
          ret tt
      end
  end.

(** The fan-out: [Promise.all(def.invalidateQueries ? entries.map(...) : [])]. *)
Definition fanOut (mutationName : string) (def : MutationDef)
    (parsed result : JsVal) (request : Context) : M (list unit) :=
  match invalidateQueries def with
  | Some entries =>
      promiseAllMap (invalidateEntry mutationName parsed result request) entries
  | None => ret []
  end.

(** A promise nobody awaits: its calls are made, its outcome is dropped. *)
Definition detached {A : Type} (m : M A) : M unit :=
  fun log => (Resolved tt, snd (m log)).

(** [this.mutations[name]] *)
Definition mutationFn (name : string) (def : MutationDef)
    (params : JsVal) (request : Context) (withAuth : bool) : M JsVal :=
  parsed <- parseParams Mutation name params ;;
  authorize Mutation name (m_authorization def) parsed request withAuth ;;;
  result <- runHandler Mutation name (mutation def) parsed request ;;
  detached (fanOut name def parsed result request) ;;;
  ret result.

Definition c_json (object : list (string * JsVal)) (status : nat) : Response :=
  mkResponse status (JObj object).

(** [this.queries[key]] and [this.mutations[key]], where the registry was
    created by [{}] and every definition was assigned to it under its name:
    the executor of a registered name, else the property of that name that
    the registry inherits from [Object.prototype], else [undefined].  (A
    definition registered under [__proto__] is found under that name as the
    others are, for it becomes the prototype the accessor returns; what the
    registry inherits from it is left out.) *)
Inductive Member (D : Type) : Type :=
| Own (def : D)
| Inherited
| Missing.
Arguments Own {D} def.
Arguments Inherited {D}.
Arguments Missing {D}.

Definition registry_get {D : Type} (defs : list (string * D)) (key : string) : Member D :=
  match obj_get defs key with
  | Some def => Own def
  | None => if inherited key then Inherited else Missing
  end.

(** The call [f(params, c)] of a function the registry inherits: what it
    throws is thrown before [tryCatch] is entered. *)
Definition inheritedCall (key : string) (params : JsVal) : M (Outcome JsVal) :=
  match Object_prototype_call key params with
  | Thrown e => throw e
  | Returned promise => ret promise
  end.

(** [handleRequest(c)]; [None] is the [undefined] of the bare [return]. *)
Definition handleRequest (c : Context) : M (option Response) :=
  let pathname := req_pathname c in
  let isQuery := endsWith pathname "/rpc/query" in
  let isMutation := endsWith pathname "/rpc/mutation" in
  if negb isQuery && negb isMutation then ret None
  else
    let key := req_key c in
    let params := req_params c in
    if isQuery then
      r <- match registry_get (queries config) key with
           | Missing => throw (HTTPException 400 ("Unknown query type: " ++ key))
           | Own def => tryCatch (queryFn key def params c true)
           | Inherited => promise <- inheritedCall key params ;;
                          tryCatch (settle promise)
           end ;;
      result <- orThrow JNull r (fun error => error) ;;
      let channel := getRpcChannelName sha256 key params in
      ret (Some (c_json [("data", result); ("channel", JStr channel);
                         ("error", JNull)] 200))
    else if isMutation then
      r <- match registry_get (mutations config) key with
           | Missing => throw (HTTPException 400 ("Unknown mutation: " ++ key))
           | Own def => tryCatch (mutationFn key def params c true)
           | Inherited => promise <- inheritedCall key params ;;
                          tryCatch (settle promise)
           end ;;
      result <- orThrow JNull r (fun error => error) ;;
      ret (Some (c_json [("success", JBool true);
                         ("data", nullish result JUndefined);
                         ("error", JNull)] 200))
    else ret (Some (c_json [("error", JStr "Request not valid")] 400)).
End LiveRPC.

(** ** Deep equality and well-formed values *)

(** [deepEqual a b]: the same value up to the order in which the properties
    of objects were created; arrays are compared position by position. *)
#[warnings="-register-all"]
Inductive deepEqual : JsVal -> JsVal -> Prop :=
| de_undefined : deepEqual JUndefined JUndefined
| de_null : deepEqual JNull JNull
| de_bool b : deepEqual (JBool b) (JBool b)
| de_num z : deepEqual (JNum z) (JNum z)
| de_nonfinite n : deepEqual (JNonFinite n) (JNonFinite n)
| de_str s : deepEqual (JStr s) (JStr s)
| de_arr l1 l2 :
    Forall2 deepEqual l1 l2 -> deepEqual (JArr l1) (JArr l2)
| de_obj o1 o o2 :
    Forall2 (fun p q => fst p = fst q /\ deepEqual (snd p) (snd q)) o1 o ->
    Permutation o o2 ->
    deepEqual (JObj o1) (JObj o2).

Fixpoint distinct (ks : list string) : bool :=
  match ks with
  | [] => true
  | k :: r => negb (existsb (String.eqb k) r) && distinct r
  end.

(** A JavaScript object has no two properties of one name. *)
Fixpoint wellFormed (v : JsVal) : bool :=
  match v with
  | JArr elems => forallb wellFormed elems
  | JObj props =>
      distinct (map fst props) && forallb (fun kv => wellFormed (snd kv)) props
  | _ => true
  end.


(** ** A configuration to run the executors on

    The posts configuration of the README ([getPosts], [getPost],
    [createPost], [deleteAllPosts]) with a few definitions added. *)

Module Demo.

(** Stands for the digest where a run needs one; the text itself. *)
Definition plainDigest (s : string) : string := s.

(** [z.undefined()] *)
Definition zUndefined (raw : JsVal) : SafeParseReturn :=
  match raw with
  | JUndefined => SafeParseSuccess JUndefined
  | _ => SafeParseError (Some "Expected undefined")
  end.

(** [z.object({ id: z.string().min(1) })]: unknown keys are stripped. *)
Definition zPostId (raw : JsVal) : SafeParseReturn :=
  match raw with
  | JObj props =>
      match obj_get props "id" with
      | Some (JStr (String c r)) => SafeParseSuccess (JObj [("id", JStr (String c r))])
      | _ => SafeParseError (Some "String must contain at least 1 character(s)")
      end
  | _ => SafeParseError (Some "Expected object")
  end.

(** [z.object({}).default({})] *)
Definition zFilter (raw : JsVal) : SafeParseReturn :=
  match raw with
  | JUndefined | JObj _ => SafeParseSuccess (JObj [])
  | _ => SafeParseError (Some "Expected object")
  end.

Definition postOf (id : string) : JsVal :=
  JObj [("id", JStr id); ("title", JStr "A"); ("content", JStr "B")].

Definition getPosts : QueryDef :=
  mkQueryDef zUndefined (fun _ _ => Resolved (JArr [postOf "p1"])) None.

Definition getPost : QueryDef :=
  mkQueryDef zPostId
    (fun params _ =>
       match params with
       | JObj [(_, JStr id)] => Resolved (postOf id)
       | _ => Rejected (OtherError "not found")
       end)
    None.

Definition searchPosts : QueryDef :=
  mkQueryDef zFilter (fun _ _ => Resolved (JArr [])) None.

(** A query guarded by a predicate that answers no. *)
Definition getDrafts : QueryDef :=
  mkQueryDef zUndefined (fun _ _ => Resolved (JStr "drafts"))
    (Some (fun _ _ => Returned (Resolved false))).

(** A query guarded by a predicate that raises. *)
Definition getAudit : QueryDef :=
  mkQueryDef zUndefined (fun _ _ => Resolved (JStr "audit"))
    (Some (fun _ _ => Returned (Rejected (OtherError "no session")))).

Definition createPost : MutationDef :=
  mkMutationDef
    (fun raw => SafeParseSuccess raw)
    (fun _ _ => Resolved (postOf "p2"))
    None
    (Some [("getPosts", Some (fun _ _ => Returned (Resolved JUndefined)));
           ("getPost",
            Some (fun _ result =>
                    Returned
                      match result with
                      | JObj props =>
                          Resolved (JObj [("id", match obj_get props "id" with
                                                 | Some v => v
                                                 | None => JUndefined
                                                 end)])
                      | _ => Rejected (OtherError "no result")
                      end))]).

Definition postIds (n : nat) : list JsVal :=
  map (fun i => JObj [("id", JStr ("p" ++ indexString i))]) (seq 0 n).

(** Deletes 25 posts and invalidates [getPost] for each of them. *)
Definition deleteAllPosts : MutationDef :=
  mkMutationDef zUndefined
    (fun _ _ => Resolved (JNum 25))
    None
    (Some [("getPost", Some (fun _ _ => Returned (Resolved (JArr (postIds 25)))))]).

(** A mutation guarded by a predicate that answers no. *)
Definition purge : MutationDef :=
  mkMutationDef zUndefined (fun _ _ => Resolved (JStr "purged"))
    (Some (fun _ _ => Returned (Resolved false))) None.

(** A mutation whose invalidation map fails in four ways: the parameters of a
    target cannot be computed, an element of an array target does not
    validate, a target is not registered, and a single parameter set does
    not validate. *)
Definition touch : MutationDef :=
  mkMutationDef zUndefined (fun _ _ => Resolved (JStr "touched")) None
    (Some [("getPosts", Some (fun _ _ => Returned (Rejected (OtherError "boom"))));
           ("getPost",
            Some (fun _ _ => Returned (Resolved (JArr [JNull; JObj [("id", JStr "p1")]]))));
           ("missing", Some (fun _ _ => Returned (Resolved JUndefined)));
           ("searchPosts", Some (fun _ _ => Returned (Resolved (JNum 3))))]).

Definition config : RPCConfig :=
  mkRPCConfig
    [("getPosts", getPosts); ("getPost", getPost); ("searchPosts", searchPosts);
     ("getDrafts", getDrafts); ("getAudit", getAudit)]
    [("createPost", createPost); ("deleteAllPosts", deleteAllPosts);
     ("purge", purge); ("touch", touch)].

(** A transport that accepts everything, and one that is down. *)
Definition socketUp : Socket :=
  mkSocket (fun _ _ _ => Resolved tt) (fun _ => Resolved tt) (Some 10).

Definition socketDown : Socket :=
  mkSocket (fun _ _ _ => Rejected (OtherError "down"))
           (fun _ => Rejected (OtherError "down")) (Some 10).

Definition request (pathname key : string) (params : JsVal) : Context :=
  mkContext pathname key params.

(** Two parameter objects that differ in the order of their keys. *)
Definition filterA : JsVal :=
  JObj [("tag", JStr "x");
        ("range", JObj [("from", JNum 1); ("to", JNum 9)]);
        ("ids", JArr [JNum 3; JNum 1])].

Definition filterB : JsVal :=
  JObj [("ids", JArr [JNum 3; JNum 1]);
        ("range", JObj [("to", JNum 9); ("from", JNum 1)]);
        ("tag", JStr "x")].
End Demo.

(** Whether the authorization step lets an execution through: it does unless
    the predicate is consulted and raises, which is to throw, or to return a
    promise that rejects with a truthy value. *)
Definition authorizationPasses
    (authorization : option (JsVal -> Context -> Called bool))
    (parsed : JsVal) (request : Context) (withAuth : bool) : bool :=
  match withAuth, authorization with
  | true, Some authz =>
      match authz parsed request with
      | Returned (Resolved _) => true
      | Returned (Rejected e) => negb (truthy e)
      | Thrown _ => false
      end
  | _, _ => true
  end.

(** The calls the authorization step makes. *)
Definition authorizationCalls (type : OpKind) (name : string)
    (authorization : option (JsVal -> Context -> Called bool))
    (parsed : JsVal) (withAuth : bool) : list Event :=
  match withAuth, authorization with
  | true, Some _ => [CallAuthorization type name parsed]
  | _, _ => []
  end.

(** What an executor makes of the call of its handler:
    [const [result, error] = await tryCatch(handler(...)); if (error) throw error;]
    and then [result].  A rejection with a falsy value is not thrown on, and
    [result] is [null]. *)
Definition handled (c : Called JsVal) : Outcome JsVal :=
  match c with
  | Returned (Resolved result) => Resolved result
  | Returned (Rejected e) => if truthy e then Rejected e else Resolved JNull
  | Thrown e => Rejected e
  end.

(** The sizes of the [batchBroadcast] calls of a log, and the channels of
    its single [broadcast] calls. *)
Definition batchSizes (log : list Event) : list nat :=
  flat_map (fun ev => match ev with
                      | CallBatchBroadcast bs => [List.length bs]
                      | _ => []
                      end) (calls log).

Definition broadcastChannels (log : list Event) : list string :=
  flat_map (fun ev => match ev with
                      | CallBroadcast channel _ _ => [channel]
                      | _ => []
                      end) (calls log).

(** Consecutive chunks of at most [size] elements: the grouping the comment
    above the reducer of [toBroadcast] describes.  [fuel] bounds the number
    of chunks. *)
Fixpoint chunksOf {A : Type} (fuel size : nat) (l : list A) : list (list A) :=
  match fuel, l with
  | _, [] => []
  | O, _ => [l]
  | S fuel', _ => firstn size l :: chunksOf fuel' size (skipn size l)
  end.

(** Unfolds an executor down to the log it returns. *)
Ltac run_rpc :=
  unfold queryFn, mutationFn, invalidate, batchInvalidate, parseParams,
    validateParams, authorize, runHandler, socketBroadcast, detached, invoke,
    tryCatch, orThrow, bind, ret, throw, settle, call; simpl.

(** ** Reading a canonical text

    What the statements about the injectivity of [stableStringify] are made
    of: the members of an object text as pairs, the text written member by
    member, and the decoder of one escaped code unit. *)

Definition memberText (m : string * string) : string :=
  QuoteJSONString (fst m) ++ ":" ++ snd m.
Arguments memberText : simpl never.

(** The members [SerializeJSONObject] writes, as (key, text) pairs. *)
Definition memberPairs (o : list (string * option string)) : list (string * string) :=
  flat_map
    (fun P =>
       match obj_get o P with
       | Some (Some strP) => [(P, strP)]
       | _ => []
       end)
    (Object_keys o).

(** The text that follows the first member: the other members, each after
    its comma, the closing brace, and then [rest]. *)
Fixpoint tailText (ms : list (string * string)) (rest : string) : string :=
  match ms with
  | [] => "}" ++ rest
  | m :: ms' => "," ++ memberText m ++ tailText ms' rest
  end.

Definition objectText (ms : list (string * string)) (rest : string) : string :=
  match ms with
  | [] => "{}" ++ rest
  | m :: ms' => "{" ++ memberText m ++ tailText ms' rest
  end.

(** A text some value serialises to. *)
Definition Serialised (s : string) : Prop :=
  exists v, SerializeJSONProperty v = Some s.

(** What may follow a value inside an object text: nothing, a comma or a
    closing brace. *)
Definition delimited (rest : string) : Prop :=
  match rest with
  | EmptyString => True
  | String c _ => c = ","%char \/ c = "}"%char
  end.

(** [s] can be read off the front of a text in one way only. *)
Definition selfDelimiting (s : string) : Prop :=
  forall s' rest rest',
    Serialised s' -> delimited rest -> delimited rest' ->
    s ++ rest = s' ++ rest' -> s = s' /\ rest = rest'.

Definition numChar (c : ascii) : bool :=
  let n := N_of_ascii c in
  ((48 <=? n)%N && (n <=? 57)%N) || (n =? 45)%N.

Fixpoint allChars (p : ascii -> bool) (s : string) : bool :=
  match s with
  | EmptyString => true
  | String c r => p c && allChars p r
  end.

(** The kind of value a text starts: by its first code unit. *)
Definition kindOf (s : string) : nat :=
  match s with
  | EmptyString => 0
  | String c _ =>
      if numChar c then 4
      else if Ascii.eqb c "n" then 1
      else if Ascii.eqb c "t" then 2
      else if Ascii.eqb c "f" then 3
      else if Ascii.eqb c dquote then 5
      else if Ascii.eqb c "{" then 6
      else 0
  end.

Definition hexValue (c : ascii) : N :=
  let n := N_of_ascii c in
  if (n <? 58)%N then n - 48 else n - 87.

(** The code unit at the front of an escaped string, and what follows it;
    [None] at the closing quote. *)
Definition unescapeChar (s : string) : option (ascii * string) :=
  match s with
  | EmptyString => None
  | String c r =>
      if Ascii.eqb c dquote then None
      else if Ascii.eqb c backslash then
        match r with
        | EmptyString => None
        | String x r' =>
            if Ascii.eqb x "u" then
              match r' with
              | String _ (String _ (String h (String l r''))) =>
                  Some (ascii_of_N (16 * hexValue h + hexValue l), r'')
              | _ => None
              end
            else if Ascii.eqb x "b" then Some ("008"%char, r')
            else if Ascii.eqb x "t" then Some ("009"%char, r')
            else if Ascii.eqb x "n" then Some ("010"%char, r')
            else if Ascii.eqb x "f" then Some ("012"%char, r')
            else if Ascii.eqb x "r" then Some ("013"%char, r')
            else Some (x, r')
        end
      else Some (c, r)
  end.

(** [value[key]] of a property that may hold [undefined]. *)
Definition textOf (o : list (string * option string)) (k : string) : option string :=
  match obj_get o k with
  | Some (Some s) => Some s
  | _ => None
  end.

From Stdlib Require Import DecimalZ DecimalPos.

(** ** class LiveRPCBuilder (live-rpc-builder-class.ts) *)

(** [{ ...target, ...src }]: the own properties of [src], in the order
    [Object.keys] gives them, are set on a copy of [target]. *)
Definition spread {A : Type} (target src : list (string * A)) : list (string * A) :=
  fold_left
    (fun acc key =>
       match obj_get src key with
       | Some v => obj_set acc key v
       | None => acc
       end)
    (Object_keys src) target.

Record LiveRPCBuilder : Type := mkLiveRPCBuilder
  { builder_queries : list (string * QueryDef);
    builder_mutations : list (string * MutationDef) }.

(** [new LiveRPCBuilder()] *)
Definition newBuilder : LiveRPCBuilder := mkLiveRPCBuilder [] [].

(** [new LiveRPCBuilder({ ...this.queries, [key]: def }, this.mutations)] *)
Definition addQuery (this : LiveRPCBuilder) (key : string) (def : QueryDef) : LiveRPCBuilder :=
  mkLiveRPCBuilder (obj_set (spread [] (builder_queries this)) key def)
    (builder_mutations this).

(** [new LiveRPCBuilder(this.queries, { ...this.mutations, [key]: def })] *)
Definition addMutation (this : LiveRPCBuilder) (key : string) (def : MutationDef)
    : LiveRPCBuilder :=
  mkLiveRPCBuilder (builder_queries this)
    (obj_set (spread [] (builder_mutations this)) key def).

(** [new LiveRPCBuilder({ ...this.queries, ...other.queries },
                        { ...this.mutations, ...other.mutations })] *)
Definition merge (this other : LiveRPCBuilder) : LiveRPCBuilder :=
  mkLiveRPCBuilder
    (spread (spread [] (builder_queries this)) (builder_queries other))
    (spread (spread [] (builder_mutations this)) (builder_mutations other)).

Definition build (this : LiveRPCBuilder) : RPCConfig :=
  mkRPCConfig (builder_queries this) (builder_mutations this).

(** [options.config]: a built configuration, or a builder, which the
    constructor of [LiveRPC] builds
    ([typeof options.config.build === 'function']). *)
Inductive ConfigOption : Type :=
| Built (config : RPCConfig)
| Builder (builder : LiveRPCBuilder).

Definition builtConfig (config : ConfigOption) : RPCConfig :=
  match config with
  | Built c => c
  | Builder b => build b
  end.

(** ** Reading a log *)

(** A computation whose outcome does not depend on the calls made before it,
    and which only adds calls to the log. *)
Definition Framed {A : Type} (m : M A) : Prop :=
  forall log, m log = (fst (m []), (log ++ snd (m []))%list).


(** The update an element of an array target puts into the batch: the one
    its [batchInvalidate] resolved with, if it resolved. *)
Definition batchItem (recomputed : Outcome (JsVal * string)) : list Broadcast :=
  match recomputed with
  | Resolved (result, channel) => [mkBroadcast channel "update" result]
  | Rejected _ => []
  end.

(** Whether a promise rejects with a falsy value. *)
Definition rejectsFalsy {A : Type} (o : Outcome A) : bool :=
  match o with
  | Resolved _ => false
  | Rejected e => negb (truthy e)
  end.

(** What [socketBroadcast] makes of the call of the transport's [broadcast]:
    a rejection with a truthy value becomes the 500 of the executor, one
    with a falsy value passes. *)
Definition sent (c : Called unit) : Outcome unit :=
  match c with
  | Returned (Resolved _) => Resolved tt
  | Returned (Rejected e) =>
      if truthy e then Rejected (HTTPException 500 "Failed to broadcast update")
      else Resolved tt
  | Thrown e => Rejected e
  end.

(** [Array.isArray(v)] *)
Definition Array_isArray (v : JsVal) : bool :=
  match v with
  | JArr _ => true
  | _ => false
  end.

(** ** Canonical forms of objects *)

(** The serialised text of the value an object holds under a key; [None]
    when the key is absent or its value serialises to [undefined]. *)
Definition textAt (props : list (string * JsVal)) (k : string) : option string :=
  match obj_get props k with
  | Some v => SerializeJSONProperty v
  | None => None
  end.

(** A value made of objects with no property [__proto__], strings, integers
    in the safe range (every one of them is a Number, and is printed in
    full), booleans and [null]: no array, no [undefined], no number that is
    not finite. *)
Fixpoint plain (v : JsVal) : bool :=
  match v with
  | JUndefined => false
  | JArr _ => false
  | JNum z => (Z.abs z <? 2 ^ 53)%Z
  | JNonFinite _ => false
  | JObj props =>
      forallb (fun kv => negb (String.eqb (fst kv) "__proto__") && plain (snd kv)) props
  | _ => true
  end.

(** [Object.keys] as a function of the keys in creation order. *)
Definition orderedKeys (ks : list string) : list string :=
  (map snd (sort indexLeb (indexKeys ks)) ++ nameKeys ks)%list.

(** Whether a key of an object of serialised values shows in the canonical
    form (it has a text, and it is not [__proto__]), and the object without
    the properties that do not show. *)
Definition hasText (t : list (string * option string)) (k : string) : bool :=
  match textOf t k with
  | Some _ => negb (String.eqb k "__proto__")
  | None => false
  end.

Definition defined (t : list (string * option string)) : list (string * option string) :=
  filter (fun kv => hasText t (fst kv)) t.

(** The properties of [o1], each with the value [o2] holds under its key. *)
Definition alignedWith (o1 o2 : list (string * JsVal)) : list (string * JsVal) :=
  map (fun kv => (fst kv, match obj_get o2 (fst kv) with
                          | Some v => v
                          | None => JUndefined
                          end)) o1.

(** ** More definitions to run the executors on *)

Module Cases.

(** A query whose handler fails. *)
Definition getBroken : QueryDef :=
  mkQueryDef Demo.zUndefined (fun _ _ => Rejected (OtherError "db down")) None.

(** A mutation guarded by a predicate that raises. *)
Definition lock : MutationDef :=
  mkMutationDef Demo.zUndefined (fun _ _ => Resolved (JStr "locked"))
    (Some (fun _ _ => Returned (Rejected (OtherError "no session"))))
    (Some [("getPosts", Some (fun _ _ => Returned (Resolved JUndefined)))]).

(** A mutation whose handler fails, with an invalidation map. *)
Definition failingWrite : MutationDef :=
  mkMutationDef Demo.zUndefined (fun _ _ => Rejected (OtherError "disk full")) None
    (Some [("getPosts", Some (fun _ _ => Returned (Resolved JUndefined)))]).

(** A query whose handler returns a promise that rejects with [undefined]. *)
Definition getFlaky : QueryDef :=
  mkQueryDef Demo.zUndefined (fun _ _ => Rejected (ThrownValue JUndefined)) None.

(** A query guarded by a predicate whose promise rejects with [null], and one
    guarded by a predicate that throws. *)
Definition getQuiet : QueryDef :=
  mkQueryDef Demo.zUndefined (fun _ _ => Resolved (JStr "quiet"))
    (Some (fun _ _ => Returned (Rejected (ThrownValue JNull)))).

Definition getStrict : QueryDef :=
  mkQueryDef Demo.zUndefined (fun _ _ => Resolved (JStr "strict"))
    (Some (fun _ _ => Thrown (OtherError "no session"))).

Definition oddConfig : RPCConfig :=
  mkRPCConfig
    [("getFlaky", getFlaky); ("getQuiet", getQuiet); ("getStrict", getStrict)] [].

(** A mutation that resolves to [null]. *)
Definition clear : MutationDef :=
  mkMutationDef Demo.zUndefined (fun _ _ => Resolved JNull) None None.

(** The configuration, made with the builder. *)
Definition builder : LiveRPCBuilder :=
  addMutation
    (addMutation
       (addMutation
          (addMutation
             (addQuery
                (addQuery
                   (addQuery
                      (addQuery newBuilder "getPosts" Demo.getPosts)
                      "getPost" Demo.getPost)
                   "getAudit" Demo.getAudit)
                "getBroken" getBroken)
             "touch" Demo.touch)
          "lock" lock)
       "failingWrite" failingWrite)
    "clear" clear.

Definition config : RPCConfig := builtConfig (Builder builder).

(** A second builder, which defines [getPosts] anew. *)
Definition overrides : LiveRPCBuilder :=
  addQuery newBuilder "getPosts" Demo.searchPosts.

Definition anyRequest : Context := mkContext "/rpc/query" "getPosts" JUndefined.
End Cases.
(** ** Facts about sorting *)

Section SortFacts.
Context {A : Type} (leb : A -> A -> bool).
Local Abbreviation le := (holds leb).

Lemma insert_perm (x : A) (l : list A) : Permutation (x :: l) (insert leb x l).
Proof.
  induction l as [|y r IH]; simpl; [reflexivity|].
  destruct (leb x y); [reflexivity|].
  rewrite perm_swap. now apply perm_skip.
Qed.

Lemma sort_perm (l : list A) : Permutation l (sort leb l).
Proof.
  induction l as [|x r IH]; simpl; [constructor|].
  rewrite <- insert_perm. now apply perm_skip.
Qed.

Hypothesis leb_total : forall x y, leb x y = true \/ leb y x = true.
Hypothesis leb_trans : forall x y z, le x y -> le y z -> le x z.

Lemma insert_sorted (x : A) (l : list A) :
  StronglySorted le l -> StronglySorted le (insert leb x l).
Proof.
  induction 1 as [|y r Hr IH Hy]; simpl.
  - repeat constructor.
  - destruct (leb x y) eqn:E.
    + constructor; [now constructor|].
      constructor; [exact E|].
      eapply Forall_impl; [|exact Hy]. intros z Hz. now apply leb_trans with y.
    + constructor; [exact IH|].
      rewrite <- (insert_perm x r). constructor; [|exact Hy].
      destruct (leb_total x y) as [H|H]; [congruence | exact H].
Qed.

Lemma sort_sorted (l : list A) : StronglySorted le (sort leb l).
Proof.
  induction l as [|x r IH]; simpl; [constructor | now apply insert_sorted].
Qed.

Hypothesis leb_antisym : forall x y, le x y -> le y x -> x = y.

Lemma sorted_unique (l l' : list A) :
  StronglySorted le l -> StronglySorted le l' -> Permutation l l' -> l = l'.
Proof.
  intros Hl. revert l'. induction Hl as [|x r Hr IH Hx]; intros l' Hl' Hp.
  - now apply Permutation_nil in Hp.
  - destruct Hl' as [|y r' Hr' Hy].
    + symmetry in Hp. now apply Permutation_nil in Hp.
    + assert (x = y) as ->.
      { assert (In y (x :: r)) as Hin1
          by (eapply Permutation_in; [symmetry; exact Hp | now left]).
        assert (In x (y :: r')) as Hin2
          by (eapply Permutation_in; [exact Hp | now left]).
        destruct Hin1 as [->|Hin1]; [reflexivity|].
        destruct Hin2 as [->|Hin2]; [reflexivity|].
        rewrite Forall_forall in Hx, Hy. now apply leb_antisym; auto. }
      f_equal. apply IH; [exact Hr'|]. now apply Permutation_cons_inv with y.
Qed.

Lemma sort_of_perm (l l' : list A) : Permutation l l' -> sort leb l = sort leb l'.
Proof.
  intros Hp. apply sorted_unique; try apply sort_sorted.
  now rewrite <- !sort_perm.
Qed.
End SortFacts.

(** The order of [String.leb] is transitive. *)
Lemma ascii_compare_N (a b : ascii) :
  Ascii.compare a b = N.compare (N_of_ascii a) (N_of_ascii b).
Proof. reflexivity. Qed.

Lemma string_compare_trans_lt (s1 : string) :
  forall s2 s3, String.compare s1 s2 = Lt -> String.compare s2 s3 = Lt ->
                String.compare s1 s3 = Lt.
Proof.
  induction s1 as [|a s1 IH]; intros [|b s2] [|c s3]; simpl; try congruence.
  rewrite !ascii_compare_N.
  destruct (N.compare_spec (N_of_ascii a) (N_of_ascii b)) as [E1|L1|G1];
    destruct (N.compare_spec (N_of_ascii b) (N_of_ascii c)) as [E2|L2|G2];
    try congruence; intros H1 H2.
  - rewrite E1, E2, N.compare_refl. now apply IH with s2.
  - rewrite E1. now rewrite (proj2 (N.compare_lt_iff _ _) L2).
  - rewrite <- E2. now rewrite (proj2 (N.compare_lt_iff _ _) L1).
  - assert (N_of_ascii a < N_of_ascii c)%N as L by lia.
    now rewrite (proj2 (N.compare_lt_iff _ _) L).
Qed.

Lemma string_leb_trans (x y z : string) :
  String.leb x y = true -> String.leb y z = true -> String.leb x z = true.
Proof.
  unfold String.leb.
  destruct (String.compare x y) eqn:E1; try discriminate;
    destruct (String.compare y z) eqn:E2; try discriminate; intros _ _.
  - apply String.compare_eq_iff in E1, E2. subst.
    destruct (String.compare z z) eqn:E; try reflexivity.
    pose proof (String.compare_antisym z z) as Ha. rewrite E in Ha. discriminate.
  - apply String.compare_eq_iff in E1. subst. now rewrite E2.
  - apply String.compare_eq_iff in E2. subst. now rewrite E1.
  - now rewrite (string_compare_trans_lt _ _ _ E1 E2).
Qed.

Lemma sort_keys_of_perm (l l' : list string) :
  Permutation l l' -> sort String.leb l = sort String.leb l'.
Proof.
  apply sort_of_perm.
  - apply String.leb_total.
  - apply string_leb_trans.
  - apply String.leb_antisym.
Qed.

(** ** Facts about property lists *)

Lemma distinct_NoDup (ks : list string) : distinct ks = true <-> NoDup ks.
Proof.
  induction ks as [|k r IH]; simpl.
  - split; [constructor | reflexivity].
  - rewrite andb_true_iff, negb_true_iff, IH. split.
    + intros [Hk Hr]. constructor; [|exact Hr].
      intros Hin. assert (existsb (String.eqb k) r = true) as E; [|congruence].
      apply existsb_exists. exists k. split; [exact Hin | apply String.eqb_refl].
    + intros H. inversion H as [|? ? Hk Hr]; subst. split; [|exact Hr].
      destruct (existsb (String.eqb k) r) eqn:E; [|reflexivity].
      apply existsb_exists in E. destruct E as [k' [Hin Hk']].
      apply String.eqb_eq in Hk'. subst. contradiction.
Qed.

Section PropsFacts.
Context {A : Type}.
Implicit Types (o : list (string * A)) (k : string).

Lemma obj_get_In o k v : obj_get o k = Some v -> In (k, v) o.
Proof.
  induction o as [|[k' v'] r IH]; simpl; [discriminate|].
  destruct (String.eqb_spec k' k) as [->|Hne].
  - intros [= ->]. now left.
  - intros H. right. now apply IH.
Qed.

Lemma obj_get_None o k : obj_get o k = None <-> ~ In k (map fst o).
Proof.
  induction o as [|[k' v'] r IH]; simpl; [tauto|].
  destruct (String.eqb_spec k' k) as [->|Hne].
  - split; [discriminate | intros H; exfalso; apply H; now left].
  - rewrite IH. tauto.
Qed.

Lemma In_obj_get o k v : NoDup (map fst o) -> In (k, v) o -> obj_get o k = Some v.
Proof.
  induction o as [|[k' v'] r IH]; simpl; [tauto|].
  intros Hnd Hin. inversion Hnd as [|? ? Hk Hr]; subst.
  destruct Hin as [[= -> ->]|Hin].
  - now rewrite String.eqb_refl.
  - destruct (String.eqb_spec k' k) as [->|Hne]; [|now apply IH].
    exfalso. apply Hk. apply in_map_iff. now exists (k, v).
Qed.

Lemma obj_get_perm o o' k :
  NoDup (map fst o) -> Permutation o o' -> obj_get o k = obj_get o' k.
Proof.
  intros Hnd Hp.
  assert (NoDup (map fst o')) as Hnd'
    by (eapply Permutation_NoDup; [apply Permutation_map; exact Hp | exact Hnd]).
  destruct (obj_get o k) as [v|] eqn:E.
  - symmetry. apply In_obj_get; [exact Hnd'|].
    eapply Permutation_in; [exact Hp | now apply obj_get_In].
  - symmetry. apply obj_get_None. rewrite obj_get_None in E. intros Hin. apply E.
    eapply Permutation_in; [symmetry; apply Permutation_map; exact Hp | exact Hin].
Qed.

Lemma Object_keys_perm_keys o : Permutation (Object_keys o) (map fst o).
Proof.
  unfold Object_keys. generalize (map fst o) as ks. intros ks.
  rewrite <- (sort_perm indexLeb (indexKeys ks)).
  unfold indexKeys, nameKeys. induction ks as [|k r IH]; simpl; [constructor|].
  destruct (arrayIndex k); simpl.
  - now apply perm_skip.
  - rewrite <- Permutation_middle. now apply perm_skip.
Qed.

Lemma Object_keys_perm o o' :
  Permutation o o' -> Permutation (Object_keys o) (Object_keys o').
Proof.
  intros Hp. rewrite !Object_keys_perm_keys. now apply Permutation_map.
Qed.

(** The replacer's result depends on the properties, not on the order in
    which the object got them. *)
Lemma sortedObj_perm o o' :
  NoDup (map fst o) -> Permutation o o' -> sortedObj o = sortedObj o'.
Proof.
  intros Hnd Hp. unfold sortedObj.
  rewrite (sort_keys_of_perm _ _ (Object_keys_perm _ _ Hp)).
  generalize (sort String.leb (Object_keys o')) as ks.
  generalize (@nil (string * A)) as acc.
  intros acc ks. revert acc. induction ks as [|k r IH]; intros acc; simpl; [reflexivity|].
  rewrite (obj_get_perm o o' k Hnd Hp). apply IH.
Qed.
End PropsFacts.

(** ** The replacer and the serialisation of the members commute *)

Section ReplacerFirst.
Context {A B : Type} (f : A -> B).
Local Abbreviation onValues := (map (fun kv : string * A => (fst kv, f (snd kv)))).

Lemma Object_keys_onValues o : Object_keys (onValues o) = Object_keys o.
Proof.
  unfold Object_keys. rewrite map_map. simpl.
  now rewrite (map_ext _ fst) by reflexivity.
Qed.

Lemma obj_get_onValues o k : obj_get (onValues o) k = option_map f (obj_get o k).
Proof.
  induction o as [|[k' v] r IH]; simpl; [reflexivity|].
  now destruct (String.eqb k' k).
Qed.

Lemma obj_set_onValues acc k v :
  obj_set (onValues acc) k (f v) = onValues (obj_set acc k v).
Proof.
  induction acc as [|[k' v'] r IH]; simpl; [reflexivity|].
  destruct (String.eqb k' k); simpl; [reflexivity | now rewrite IH].
Qed.

(** Sorting the keys of an object whose values were mapped is mapping the
    values of the object with its keys sorted. *)
Lemma obj_assign_onValues acc k v :
  obj_assign (onValues acc) k (f v) = onValues (obj_assign acc k v).
Proof.
  unfold obj_assign. destruct (String.eqb k "__proto__"); [reflexivity|].
  apply obj_set_onValues.
Qed.

Lemma sortedObj_map o : sortedObj (onValues o) = onValues (sortedObj o).
Proof.
  unfold sortedObj. rewrite Object_keys_onValues.
  change (@nil (string * B)) with (onValues []).
  generalize (@nil (string * A)) as acc.
  induction (sort String.leb (Object_keys o)) as [|k ks IH]; intros acc; simpl;
    [reflexivity|].
  rewrite obj_get_onValues. destruct (obj_get o k) as [v|]; simpl.
  - rewrite obj_assign_onValues. apply IH.
  - apply IH.
Qed.

Lemma arrayProps_map (elems : list A) :
  arrayProps (map f elems) = onValues (arrayProps elems).
Proof.
  unfold arrayProps. rewrite length_map.
  generalize (map indexString (seq 0 (List.length elems))) as ks.
  induction elems as [|x r IH]; intros [|k ks]; simpl; try reflexivity.
  now rewrite IH.
Qed.
End ReplacerFirst.

(** [JSON.stringify] in the order of the source: the replacer gives the
    object with its keys sorted, and each of its values is then serialised. *)
Lemma Serialize_object_replacer_first (props : list (string * JsVal)) :
  SerializeJSONProperty (JObj props) =
  Some (SerializeJSONObject
          (map (fun kv => (fst kv, SerializeJSONProperty (snd kv))) (sortedObj props))).
Proof. simpl. now rewrite (sortedObj_map SerializeJSONProperty). Qed.

Lemma Serialize_array_replacer_first (elems : list JsVal) :
  SerializeJSONProperty (JArr elems) =
  Some (SerializeJSONObject
          (map (fun kv => (fst kv, SerializeJSONProperty (snd kv)))
               (sortedObj (arrayProps elems)))).
Proof.
  simpl. rewrite (arrayProps_map SerializeJSONProperty).
  now rewrite (sortedObj_map SerializeJSONProperty).
Qed.

(** [JSON.stringify] gives [undefined] for [undefined] only. *)
Lemma JSON_stringify_defined (obj : JsVal) :
  JSON_stringify obj = None <-> obj = JUndefined.
Proof.
  split; [|now intros ->].
  destruct obj as [| |[]| | | | |]; simpl; intros H; try discriminate; reflexivity.
Qed.

(** ** Serialisation respects deep equality *)

Lemma map_fst_serialised (o : list (string * JsVal)) :
  map fst (map (fun kv => (fst kv, SerializeJSONProperty (snd kv))) o) = map fst o.
Proof. rewrite map_map. now apply map_ext. Qed.

Lemma map_Forall2 {X Y Z : Type} (R : X -> Y -> Prop) (f : X -> Z) (g : Y -> Z)
    (l : list X) (l' : list Y) :
  Forall2 R l l' -> (forall x y, In x l -> R x y -> f x = g y) -> map f l = map g l'.
Proof.
  induction 1 as [|x y r r' Hxy Hr IH]; intros Hfg; [reflexivity|].
  simpl. f_equal.
  - apply Hfg; [now left | exact Hxy].
  - apply IH. intros a b Ha. apply Hfg. now right.
Qed.

Lemma Serialize_deepEqual (v : JsVal) :
  forall w, wellFormed v = true -> deepEqual v w ->
            SerializeJSONProperty v = SerializeJSONProperty w.
Proof.
  induction v as [| | | | | |elems IH|props IH] using JsVal_induction;
    intros w Hwf Hde; inversion Hde as [| | | | | |? l2 Hall|? o o2 Hall Hperm];
    subst; try reflexivity.
  - simpl in *. do 4 f_equal.
    rewrite forallb_forall in Hwf. rewrite Forall_forall in IH.
    apply (map_Forall2 _ _ _ _ _ Hall). intros x y Hin Hxy. now apply IH; auto.
  - simpl in Hwf. apply andb_true_iff in Hwf. destruct Hwf as [Hnd Hwf].
    apply distinct_NoDup in Hnd.
    rewrite forallb_forall in Hwf. rewrite Forall_forall in IH.
    simpl. do 2 f_equal.
    set (f := fun kv : string * JsVal => (fst kv, SerializeJSONProperty (snd kv))).
    assert (map f props = map f o) as ->.
    { apply (map_Forall2 _ _ _ _ _ Hall). intros p q Hin [Hk Hv].
      unfold f. rewrite Hk. f_equal. now apply IH; auto. }
    apply sortedObj_perm; [|now apply Permutation_map].
    unfold f. rewrite map_fst_serialised.
    assert (map fst props = map fst o) as <-; [|exact Hnd].
    apply (map_Forall2 _ _ _ _ _ Hall). now intros p q _ [Hk _].
Qed.

(** ** The executors *)

Lemma string_app_inv_head (s a b : string) : s ++ a = s ++ b -> a = b.
Proof. induction s as [|c s IH]; simpl; [easy|]. intros [= H]. now apply IH. Qed.

Lemma string_app_assoc (a b c : string) : (a ++ b) ++ c = a ++ b ++ c.
Proof. induction a as [|x a IH]; simpl; [reflexivity | now rewrite IH]. Qed.

Section Executors.
Variable sha256 : string -> string.
Variable socket : Socket.
Variable config : RPCConfig.

(** The statement that follows the validation never throws: [tryCatch] is
    given a value there, not a promise. *)
Lemma parseParams_validateParams type name params log :
  parseParams config type name params log = validateParams config type name params log.
Proof.
  unfold parseParams, bind, tryCatch, orThrow, ret.
  now destruct (validateParams config type name params log) as [[v|e] l].
Qed.

(** The handler stage of an executor. *)
Lemma runHandler_handled type name handler parsed request log :
  runHandler type name handler parsed request log =
    (handled (handler parsed request), (log ++ [CallHandler type name parsed])%list).
Proof.
  unfold runHandler, invoke, bind, call, tryCatch, settle, orThrow, ret, throw, handled.
  destruct (handler parsed request) as [[result|e]|e]; try reflexivity.
  now destruct (truthy e).
Qed.

(** The authorization stage of an executor. *)
Lemma authorize_run type name authorization parsed request withAuth log :
  authorize type name authorization parsed request withAuth log =
    (match withAuth, authorization with
     | true, Some authz =>
         match authz parsed request with
         | Returned (Resolved _) => Resolved tt
         | Returned (Rejected e) =>
             if truthy e then Rejected (HTTPException 401 "Unauthorized")
             else Resolved tt
         | Thrown e => Rejected e
         end
     | _, _ => Resolved tt
     end,
     (log ++ authorizationCalls type name authorization parsed withAuth)%list).
Proof.
  unfold authorize, authorizationCalls.
  destruct withAuth, authorization as [authz|];
    try (unfold ret; now rewrite app_nil_r).
  unfold invoke, bind, call, tryCatch, settle, orThrow, ret, throw.
  destruct (authz parsed request) as [[b|e]|e]; try reflexivity.
  now destruct (truthy e).
Qed.

Lemma authorize_passes type name authorization parsed request withAuth log :
  authorizationPasses authorization parsed request withAuth = true ->
  authorize type name authorization parsed request withAuth log =
    (Resolved tt, (log ++ authorizationCalls type name authorization parsed withAuth)%list).
Proof.
  intros H. rewrite authorize_run. f_equal. unfold authorizationPasses in H.
  destruct withAuth, authorization as [authz|]; try reflexivity.
  destruct (authz parsed request) as [[b|e]|e]; try reflexivity; try discriminate.
  now destruct (truthy e).
Qed.

(** The transport stage of [invalidate] and [batchInvalidate]. *)
Lemma socketBroadcast_sent channel event data log :
  socketBroadcast socket channel event data log =
    (match sent (broadcast socket channel event data) with
     | Resolved _ => Resolved tt
     | Rejected e => Rejected e
     end,
     (log ++ [CallBroadcast channel event data])%list).
Proof.
  unfold socketBroadcast, invoke, bind, call, tryCatch, settle, orThrow, ret, throw, sent.
  destruct (broadcast socket channel event data) as [[[]|e]|e]; try reflexivity.
  now destruct (truthy e).
Qed.

(** Invalid params: the query executor throws 400 with the validator's
    message and makes no call. *)
Lemma queryFn_invalid name def raw request withAuth log message :
  obj_get (queries config) name = Some def ->
  q_params def raw = SafeParseError message ->
  queryFn config name def raw request withAuth log =
    (Rejected (HTTPException 400
                 (match message with Some m => m | None => "Invalid params" end)),
     log).
Proof. intros Hdef Hparse. run_rpc. now rewrite Hdef; simpl; rewrite Hparse. Qed.

Lemma mutationFn_invalid name def raw request withAuth log message :
  obj_get (mutations config) name = Some def ->
  m_params def raw = SafeParseError message ->
  mutationFn sha256 socket config name def raw request withAuth log =
    (Rejected (HTTPException 400
                 (match message with Some m => m | None => "Invalid params" end)),
     log).
Proof. intros Hdef Hparse. run_rpc. now rewrite Hdef; simpl; rewrite Hparse. Qed.

Lemma parseParams_query name def raw parsed log :
  obj_get (queries config) name = Some def ->
  q_params def raw = SafeParseSuccess parsed ->
  parseParams config Query name raw log = (Resolved parsed, log).
Proof.
  intros Hdef Hparse. rewrite parseParams_validateParams. unfold validateParams.
  now rewrite Hdef; simpl; rewrite Hparse.
Qed.

Lemma parseParams_mutation name def raw parsed log :
  obj_get (mutations config) name = Some def ->
  m_params def raw = SafeParseSuccess parsed ->
  parseParams config Mutation name raw log = (Resolved parsed, log).
Proof.
  intros Hdef Hparse. rewrite parseParams_validateParams. unfold validateParams.
  now rewrite Hdef; simpl; rewrite Hparse.
Qed.

(** The query executor, stage by stage. *)
Lemma queryFn_stages name def raw request withAuth log parsed :
  obj_get (queries config) name = Some def ->
  q_params def raw = SafeParseSuccess parsed ->
  queryFn config name def raw request withAuth log =
    match authorize Query name (q_authorization def) parsed request withAuth log with
    | (Resolved _, log1) => runHandler Query name (query def) parsed request log1
    | (Rejected e, log1) => (Rejected e, log1)
    end.
Proof.
  intros Hdef Hparse. unfold queryFn. unfold bind at 1.
  rewrite (parseParams_query name def raw parsed log Hdef Hparse). reflexivity.
Qed.

(** A predicate that raises with a truthy value: 401, and the handler is
    not called. *)
Lemma queryFn_authorization_raises name def raw request log parsed authz e :
  obj_get (queries config) name = Some def ->
  q_params def raw = SafeParseSuccess parsed ->
  q_authorization def = Some authz ->
  authz parsed request = Rejected e ->
  truthy e = true ->
  queryFn config name def raw request true log =
    (Rejected (HTTPException 401 "Unauthorized"),
     (log ++ [CallAuthorization Query name parsed])%list).
Proof.
  intros Hdef Hparse Hauth He Ht.
  rewrite (queryFn_stages name def raw request true log parsed Hdef Hparse).
  rewrite authorize_run. unfold authorizationCalls. now rewrite Hauth, He, Ht.
Qed.

(** A predicate that answers, whatever the answer: the handler runs. *)
Lemma queryFn_authorization_answer_unread name def raw request log parsed authz b :
  obj_get (queries config) name = Some def ->
  q_params def raw = SafeParseSuccess parsed ->
  q_authorization def = Some authz ->
  authz parsed request = Resolved b ->
  queryFn config name def raw request true log =
    (handled (query def parsed request),
     (log ++ [CallAuthorization Query name parsed; CallHandler Query name parsed])%list).
Proof.
  intros Hdef Hparse Hauth Hb.
  rewrite (queryFn_stages name def raw request true log parsed Hdef Hparse).
  rewrite authorize_run. unfold authorizationCalls. rewrite Hauth, Hb.
  rewrite runHandler_handled. now rewrite <- app_assoc.
Qed.

Lemma queryFn_runs name def raw request withAuth log parsed :
  obj_get (queries config) name = Some def ->
  q_params def raw = SafeParseSuccess parsed ->
  authorizationPasses (q_authorization def) parsed request withAuth = true ->
  queryFn config name def raw request withAuth log =
    (handled (query def parsed request),
     (log ++ authorizationCalls Query name (q_authorization def) parsed withAuth
          ++ [CallHandler Query name parsed])%list).
Proof.
  intros Hdef Hparse Hauth.
  rewrite (queryFn_stages name def raw request withAuth log parsed Hdef Hparse).
  rewrite (authorize_passes _ _ _ _ _ _ _ Hauth).
  rewrite runHandler_handled. now rewrite <- app_assoc.
Qed.

(** The mutation executor, stage by stage. *)
Lemma mutationFn_stages name def raw request withAuth log parsed :
  obj_get (mutations config) name = Some def ->
  m_params def raw = SafeParseSuccess parsed ->
  mutationFn sha256 socket config name def raw request withAuth log =
    match authorize Mutation name (m_authorization def) parsed request withAuth log with
    | (Resolved _, log1) =>
        match handled (mutation def parsed request) with
        | Resolved result =>
            (Resolved result,
             snd (fanOut sha256 socket config name def parsed result request
                    (log1 ++ [CallHandler Mutation name parsed])%list))
        | Rejected e => (Rejected e, (log1 ++ [CallHandler Mutation name parsed])%list)
        end
    | (Rejected e, log1) => (Rejected e, log1)
    end.
Proof.
  intros Hdef Hparse. unfold mutationFn. unfold bind at 1.
  rewrite (parseParams_mutation name def raw parsed log Hdef Hparse).
  unfold bind at 1.
  destruct (authorize Mutation name (m_authorization def) parsed request withAuth log)
    as [[[]|e] log1]; [|reflexivity].
  unfold bind at 1. rewrite runHandler_handled.
  now destruct (handled (mutation def parsed request)).
Qed.

Lemma mutationFn_authorization_answer_unread name def raw request log parsed authz b :
  obj_get (mutations config) name = Some def ->
  m_params def raw = SafeParseSuccess parsed ->
  m_authorization def = Some authz ->
  authz parsed request = Resolved b ->
  fst (mutationFn sha256 socket config name def raw request true log) =
    handled (mutation def parsed request).
Proof.
  intros Hdef Hparse Hauth Hb.
  rewrite (mutationFn_stages name def raw request true log parsed Hdef Hparse).
  rewrite authorize_run, Hauth, Hb.
  now destruct (handled (mutation def parsed request)).
Qed.

(** [invalidate] and [batchInvalidate], stage by stage. *)
Lemma invalidate_stages name def raw request log parsed :
  obj_get (queries config) name = Some def ->
  q_params def raw = SafeParseSuccess parsed ->
  invalidate sha256 socket config name def raw request log =
    match handled (query def parsed request) with
    | Resolved result =>
        (match sent (broadcast socket (getRpcChannelName sha256 name parsed)
                       "update" result) with
         | Resolved _ => Resolved result
         | Rejected e => Rejected e
         end,
         (log ++ [CallHandler Query name parsed;
                  CallBroadcast (getRpcChannelName sha256 name parsed) "update" result])%list)
    | Rejected e => (Rejected e, (log ++ [CallHandler Query name parsed])%list)
    end.
Proof.
  intros Hdef Hparse. unfold invalidate. unfold bind at 1.
  rewrite (parseParams_query name def raw parsed log Hdef Hparse).
  unfold bind at 1. rewrite runHandler_handled.
  destruct (handled (query def parsed request)) as [result|e]; [|reflexivity].
  unfold bind. rewrite socketBroadcast_sent. rewrite <- app_assoc.
  now destruct (sent _).
Qed.

Lemma batchInvalidate_stages name def raw request log parsed :
  obj_get (queries config) name = Some def ->
  q_params def raw = SafeParseSuccess parsed ->
  batchInvalidate sha256 socket config name def raw request log =
    match handled (query def parsed request) with
    | Resolved result =>
        (match sent (broadcast socket (getRpcChannelName sha256 name parsed)
                       "update" result) with
         | Resolved _ => Resolved (result, getRpcChannelName sha256 name parsed)
         | Rejected e => Rejected e
         end,
         (log ++ [CallHandler Query name parsed;
                  CallBroadcast (getRpcChannelName sha256 name parsed) "update" result])%list)
    | Rejected e => (Rejected e, (log ++ [CallHandler Query name parsed])%list)
    end.
Proof.
  intros Hdef Hparse. unfold batchInvalidate. unfold bind at 1.
  rewrite (parseParams_query name def raw parsed log Hdef Hparse).
  unfold bind at 1. rewrite runHandler_handled.
  destruct (handled (query def parsed request)) as [result|e]; [|reflexivity].
  unfold bind. rewrite socketBroadcast_sent. rewrite <- app_assoc.
  now destruct (sent _).
Qed.

(** What [invalidate] and [batchInvalidate] call. *)
Lemma invalidate_calls name def raw request log parsed result :
  obj_get (queries config) name = Some def ->
  q_params def raw = SafeParseSuccess parsed ->
  query def parsed request = Resolved result ->
  snd (invalidate sha256 socket config name def raw request log) =
    (log ++ [CallHandler Query name parsed;
             CallBroadcast (getRpcChannelName sha256 name parsed) "update" result])%list.
Proof.
  intros Hdef Hparse Hres.
  rewrite (invalidate_stages name def raw request log parsed Hdef Hparse).
  now rewrite Hres.
Qed.

Lemma batchInvalidate_calls name def raw request log parsed result :
  obj_get (queries config) name = Some def ->
  q_params def raw = SafeParseSuccess parsed ->
  query def parsed request = Resolved result ->
  snd (batchInvalidate sha256 socket config name def raw request log) =
    (log ++ [CallHandler Query name parsed;
             CallBroadcast (getRpcChannelName sha256 name parsed) "update" result])%list.
Proof.
  intros Hdef Hparse Hres.
  rewrite (batchInvalidate_stages name def raw request log parsed Hdef Hparse).
  now rewrite Hres.
Qed.

(** The reducer of [toBroadcast] never opens a second batch. *)
Lemma fold_groupStep (bs : list Broadcast) (first : list Broadcast) :
  fold_left groupStep bs [first] = [(first ++ bs)%list].
Proof.
  revert first. induction bs as [|b r IH]; intros first; simpl.
  - now rewrite app_nil_r.
  - unfold groupStep at 2. simpl. rewrite IH. now rewrite <- app_assoc.
Qed.

Lemma toBroadcast_one_batch (outcomes : list BatchOutcome) :
  (List.length (toBroadcast outcomes) <= 1)%nat.
Proof.
  unfold toBroadcast.
  destruct (flat_map _ outcomes) as [|b r]; simpl; [lia|].
  unfold groupStep at 2. simpl. now rewrite fold_groupStep.
Qed.

(** A mutation that gets as far as a handler that resolves returns the
    handler's result. *)
Lemma mutation_returns_handler_result_general name def raw parsed result request
    withAuth log :
  obj_get (mutations config) name = Some def ->
  m_params def raw = SafeParseSuccess parsed ->
  authorizationPasses (m_authorization def) parsed request withAuth = true ->
  mutation def parsed request = Resolved result ->
  fst (mutationFn sha256 socket config name def raw request withAuth log) =
    Resolved result.
Proof.
  intros Hdef Hparse Hauth Hres.
  rewrite (mutationFn_stages name def raw request withAuth log parsed Hdef Hparse).
  rewrite (authorize_passes _ _ _ _ _ _ _ Hauth). now rewrite Hres.
Qed.

(** [maxBatchSize] has no part in what a mutation does. *)
Lemma mutationFn_ignores_maxBatchSize
    (send : string -> string -> JsVal -> Called unit)
    (sendBatch : list Broadcast -> Called unit) (m1 m2 : option nat)
    name def params request withAuth log :
  mutationFn sha256 (mkSocket send sendBatch m1) config name def params request
    withAuth log =
  mutationFn sha256 (mkSocket send sendBatch m2) config name def params request
    withAuth log.
Proof. reflexivity. Qed.

(** A request that is neither a query nor a mutation: [handleRequest]
    returns [undefined] and calls nothing. *)
Lemma handleRequest_other_suffix c log :
  endsWith (req_pathname c) "/rpc/query" = false ->
  endsWith (req_pathname c) "/rpc/mutation" = false ->
  handleRequest sha256 socket config c log = (Resolved None, log).
Proof. intros Hq Hm. unfold handleRequest. now rewrite Hq, Hm. Qed.
End Executors.

(** ** The claims about the executors *)

(** C6.  When the raw params fail the schema of a query, the query execution
    fails with an HTTPException of status 400 that carries the validator's
    message ([Invalid params] stands in when the error has no message), and
    the run makes no call at all: the log is returned as it was, so the
    handler is never invoked on the invalid input.  The same holds, on its
    own, of a mutation whose raw params fail its schema. *)
Theorem invalid_params_rejected_before_handler
    (sha256 : string -> string) (socket : Socket) (config : RPCConfig) :
  (forall (name : string) (def : QueryDef) (raw : JsVal) (request : Context)
          (withAuth : bool) (log : list Event) (message : option string),
     obj_get (queries config) name = Some def ->
     q_params def raw = SafeParseError message ->
     queryFn config name def raw request withAuth log =
       (Rejected (HTTPException 400
                    (match message with Some m => m | None => "Invalid params" end)),
        log)) /\
  (forall (name : string) (def : MutationDef) (raw : JsVal) (request : Context)
          (withAuth : bool) (log : list Event) (message : option string),
     obj_get (mutations config) name = Some def ->
     m_params def raw = SafeParseError message ->
     mutationFn sha256 socket config name def raw request withAuth log =
       (Rejected (HTTPException 400
                    (match message with Some m => m | None => "Invalid params" end)),
        log)).
Proof.
  split.
  - intros name def raw request withAuth log message. apply queryFn_invalid.
  - intros name def raw request withAuth log message. apply mutationFn_invalid.
Qed.

(** A configuration with no mutation at all still rejects the invalid params
    of a query, and one with no query those of a mutation. *)
Lemma invalid_params_rejected_before_handler_witness :
  queryFn (mkRPCConfig [("getPost", Demo.getPost)] []) "getPost" Demo.getPost JNull
    (Demo.request "/rpc/query" "getPost" JNull) true [] =
    (Rejected (HTTPException 400 "Expected object"), []) /\
  mutationFn Demo.plainDigest Demo.socketUp
    (mkRPCConfig [] [("deleteAllPosts", Demo.deleteAllPosts)]) "deleteAllPosts"
    Demo.deleteAllPosts (JNum 1)
    (Demo.request "/rpc/mutation" "deleteAllPosts" (JNum 1)) true [] =
    (Rejected (HTTPException 400 "Expected undefined"), []).
Proof.
  split.
  - exact (proj1 (invalid_params_rejected_before_handler
                    Demo.plainDigest Demo.socketUp
                    (mkRPCConfig [("getPost", Demo.getPost)] []))
             "getPost" Demo.getPost JNull
             (Demo.request "/rpc/query" "getPost" JNull) true []
             (Some "Expected object") eq_refl eq_refl).
  - exact (proj2 (invalid_params_rejected_before_handler
                    Demo.plainDigest Demo.socketUp
                    (mkRPCConfig [] [("deleteAllPosts", Demo.deleteAllPosts)]))
             "deleteAllPosts" Demo.deleteAllPosts (JNum 1)
             (Demo.request "/rpc/mutation" "deleteAllPosts" (JNum 1)) true []
             (Some "Expected undefined") eq_refl eq_refl).
Defined.

(** C5.  A mutation whose params validate, whose authorization step does not
    raise and whose handler resolves returns the handler's result, whatever
    the transport, the invalidation map and the registered queries do: the
    fan-out is not awaited and its outcome is dropped. *)
Theorem mutation_returns_handler_result
    (sha256 : string -> string) (socket : Socket) (config : RPCConfig)
    (name : string) (def : MutationDef) (raw parsed result : JsVal)
    (request : Context) (withAuth : bool) (log : list Event) :
  obj_get (mutations config) name = Some def ->
  m_params def raw = SafeParseSuccess parsed ->
  authorizationPasses (m_authorization def) parsed request withAuth = true ->
  mutation def parsed request = Resolved result ->
  fst (mutationFn sha256 socket config name def raw request withAuth log) =
    Resolved result.
Proof.
  intros Hdef Hparse Hauth Hres.
  rewrite (mutationFn_stages sha256 socket config name def raw request withAuth log
             parsed Hdef Hparse).
  rewrite (authorize_passes _ _ _ _ _ _ _ Hauth). now rewrite Hres.
Qed.

(** With the transport down and an invalidation map whose entries fail in
    four different ways, [touch] still returns its handler's result. *)
Lemma mutation_returns_handler_result_witness :
  fst (mutationFn Demo.plainDigest Demo.socketDown Demo.config "touch" Demo.touch
         JUndefined (Demo.request "/rpc/mutation" "touch" JUndefined) true []) =
    Resolved (JStr "touched").
Proof.
  exact (mutation_returns_handler_result
           Demo.plainDigest Demo.socketDown Demo.config "touch" Demo.touch
           JUndefined JUndefined (JStr "touched")
           (Demo.request "/rpc/mutation" "touch" JUndefined) true []
           eq_refl eq_refl eq_refl eq_refl).
Defined.

(** The fan-out of that run did fail: each of the four entries rejects. *)
Example touch_fan_out_fails :
  map (fun entry =>
         fst (invalidateEntry Demo.plainDigest Demo.socketDown Demo.config "touch"
                JUndefined (JStr "touched")
                (Demo.request "/rpc/mutation" "touch" JUndefined) entry []))
      (match invalidateQueries Demo.touch with Some entries => entries | None => [] end) =
    [Rejected (HTTPException 500 "Failed to invalidate query");
     Rejected (HTTPException 500 "Failed to invalidate some queries");
     Rejected TypeError;
     Rejected (HTTPException 400 "Expected object")].
Proof. vm_compute. reflexivity. Qed.

(** C3, evaluated where the code departs from it.  [getDrafts] and [purge]
    are guarded by a predicate that resolves to [false]; with
    [withAuth = true] the executors call the predicate, do not read its
    answer, call the handler and return its result.  Only a predicate that
    raises gives 401 ([getAudit]). *)
Theorem authorization_false_still_runs_handler :
  queryFn Demo.config "getDrafts" Demo.getDrafts JUndefined
    (Demo.request "/rpc/query" "getDrafts" JUndefined) true [] =
    (Resolved (JStr "drafts"),
     [CallAuthorization Query "getDrafts" JUndefined;
      CallHandler Query "getDrafts" JUndefined]) /\
  mutationFn Demo.plainDigest Demo.socketUp Demo.config "purge" Demo.purge JUndefined
    (Demo.request "/rpc/mutation" "purge" JUndefined) true [] =
    (Resolved (JStr "purged"),
     [CallAuthorization Mutation "purge" JUndefined;
      CallHandler Mutation "purge" JUndefined]) /\
  queryFn Demo.config "getAudit" Demo.getAudit JUndefined
    (Demo.request "/rpc/query" "getAudit" JUndefined) true [] =
    (Rejected (HTTPException 401 "Unauthorized"),
     [CallAuthorization Query "getAudit" JUndefined]).
Proof. repeat split. Qed.

(** C4, evaluated where the code departs from it.  [batchInvalidate] of
    [getPost] recomputes the query and calls the transport's [broadcast] on
    the query's channel before it returns [{ result, channel }]. *)
Theorem batchInvalidate_broadcasts :
  batchInvalidate Demo.plainDigest Demo.socketUp Demo.config "getPost" Demo.getPost
    (JObj [("id", JStr "p7")]) (Demo.request "/rpc/mutation" "createPost" JNull) [] =
    (Resolved (Demo.postOf "p7",
               getRpcChannelName Demo.plainDigest "getPost" (JObj [("id", JStr "p7")])),
     [CallHandler Query "getPost" (JObj [("id", JStr "p7")]);
      CallBroadcast
        (getRpcChannelName Demo.plainDigest "getPost" (JObj [("id", JStr "p7")]))
        "update" (Demo.postOf "p7")]).
Proof. vm_compute. reflexivity. Qed.

(** C2, evaluated where the code departs from it.  [deleteAllPosts]
    invalidates [getPost] for 25 parameter sets that all recompute, with
    [maxBatchSize = 10]: the run calls [batchBroadcast] once, with all 25
    elements, where chunks of at most 10 would be three calls of 10, 10
    and 5. *)
Theorem fan_out_sends_one_batch_of_25 :
  maxBatchSize Demo.socketUp = Some 10 /\
  batchSizes
    (snd (mutationFn Demo.plainDigest Demo.socketUp Demo.config "deleteAllPosts"
            Demo.deleteAllPosts JUndefined
            (Demo.request "/rpc/mutation" "deleteAllPosts" JUndefined) true [])) =
    [25] /\
  map (@List.length Broadcast)
    (chunksOf 25 10
       (map (fun p => mkBroadcast (getRpcChannelName Demo.plainDigest "getPost" p)
                        "update" JNull)
            (Demo.postIds 25))) =
    [10; 10; 5].
Proof. vm_compute. repeat split. Qed.

(** C8, evaluated where the code departs from it.  A request to
    [/api/rpc/subscribe] is neither dispatched nor answered: [handleRequest]
    returns [undefined], not an error response, and the final
    [c.json({ error: 'Request not valid' }, 400)] is never reached. *)
Theorem other_suffix_returns_undefined :
  handleRequest Demo.plainDigest Demo.socketUp Demo.config
    (Demo.request "/api/rpc/subscribe" "getPosts" JUndefined) [] =
    (Resolved None, []).
Proof. reflexivity. Qed.

(** No request at all is answered with the 400 response of the last
    statement of [handleRequest]. *)
Lemma handleRequest_never_answers_not_valid
    (sha256 : string -> string) (socket : Socket) (config : RPCConfig)
    (c : Context) (log : list Event) :
  fst (handleRequest sha256 socket config c log) <>
    Resolved (Some (c_json [("error", JStr "Request not valid")] 400)).
Proof.
  unfold handleRequest.
  destruct (endsWith (req_pathname c) "/rpc/query") eqn:Eq;
    destruct (endsWith (req_pathname c) "/rpc/mutation") eqn:Em; simpl;
    try discriminate;
    unfold bind;
    match goal with
    | |- context [match ?m log with _ => _ end] =>
        destruct (m log) as [[[r|e]|e] l]; simpl; try discriminate;
        try destruct (truthy e); discriminate
    end.
Qed.

(** ** The claims about channel names *)

(** C9.  [undefined], [null] and the empty object all canonicalise to the
    text of the empty object, so the three name the same channel of every
    query. *)
Theorem absent_null_empty_share_channel (sha256 : string -> string) (q : string) :
  stableStringify JUndefined = "{}" /\
  stableStringify JNull = "{}" /\
  stableStringify (JObj []) = "{}" /\
  getRpcChannelName sha256 q JUndefined = getRpcChannelName sha256 q JNull /\
  getRpcChannelName sha256 q JNull = getRpcChannelName sha256 q (JObj []).
Proof. repeat split. Qed.

(** C1.  Two parameter values that are deep-equal up to the order of object
    keys, at every nesting level, have the same canonical form and name the
    same channel of every query. *)
Theorem channel_name_ignores_key_order
    (sha256 : string -> string) (q : string) (p1 p2 : JsVal) :
  wellFormed p1 = true ->
  deepEqual p1 p2 ->
  stableStringify p1 = stableStringify p2 /\
  getRpcChannelName sha256 q p1 = getRpcChannelName sha256 q p2.
Proof.
  intros Hwf Hde.
  assert (stableStringify p1 = stableStringify p2) as Hs.
  { pose proof (Serialize_deepEqual p1 p2 Hwf Hde) as H.
    inversion Hde; subst; try reflexivity;
      unfold stableStringify, JSON_stringify; now rewrite H. }
  split; [exact Hs|].
  unfold getRpcChannelName. do 4 f_equal.
  inversion Hde; subst; try reflexivity; exact Hs.
Qed.

Lemma filterA_deepEqual_filterB : deepEqual Demo.filterA Demo.filterB.
Proof.
  apply de_obj with
    (o := [("tag", JStr "x");
           ("range", JObj [("to", JNum 9); ("from", JNum 1)]);
           ("ids", JArr [JNum 3; JNum 1])]).
  - repeat constructor; simpl.
    apply de_obj with (o := [("from", JNum 1); ("to", JNum 9)]).
    + repeat constructor.
    + apply perm_swap.
  - apply Permutation_rev.
Qed.

Lemma channel_name_ignores_key_order_witness :
  stableStringify Demo.filterA = stableStringify Demo.filterB /\
  getRpcChannelName Demo.plainDigest "searchPosts" Demo.filterA =
    getRpcChannelName Demo.plainDigest "searchPosts" Demo.filterB.
Proof.
  exact (channel_name_ignores_key_order Demo.plainDigest "searchPosts"
           Demo.filterA Demo.filterB eq_refl filterA_deepEqual_filterB).
Defined.

(** C10, as stated, fails: [searchPosts] parses the absent params into the
    empty object, so [safeParse] changes the value, and yet the channel of
    the response and the channel [invalidate] broadcasts on are the same. *)
Lemma channels_coincide_though_parse_changes_input :
  Demo.zFilter JUndefined = SafeParseSuccess (JObj []) /\
  JObj [] <> JUndefined /\
  fst (handleRequest Demo.plainDigest Demo.socketUp Demo.config
         (Demo.request "/rpc/query" "searchPosts" JUndefined) []) =
    Resolved (Some (c_json [("data", JArr []);
                            ("channel", JStr "query_searchPosts_{}");
                            ("error", JNull)] 200)) /\
  broadcastChannels
    (snd (invalidate Demo.plainDigest Demo.socketUp Demo.config "searchPosts"
            Demo.searchPosts JUndefined
            (Demo.request "/rpc/query" "searchPosts" JUndefined) [])) =
    ["query_searchPosts_{}"].
Proof. repeat split. discriminate. Qed.

(** C10, amended.  For a successful query request, the channel of the
    response is computed from the raw params, and [invalidate] and
    [batchInvalidate] broadcast on the channel computed from the parsed
    params.  The two are equal whenever raw and parsed params have the same
    canonical form (after [?? {}]), and if they are equal then the two
    canonical forms have the same digest. *)
Theorem response_channel_vs_broadcast_channel
    (sha256 : string -> string) (socket : Socket) (config : RPCConfig)
    (pathname key : string) (def : QueryDef) (raw parsed result : JsVal)
    (log : list Event) :
  let c := mkContext pathname key raw in
  let canonical p := stableStringify (nullish p (JObj [])) in
  endsWith pathname "/rpc/query" = true ->
  obj_get (queries config) key = Some def ->
  q_params def raw = SafeParseSuccess parsed ->
  authorizationPasses (q_authorization def) parsed c true = true ->
  query def parsed c = Resolved result ->
  fst (handleRequest sha256 socket config c log) =
    Resolved (Some (c_json [("data", result);
                            ("channel", JStr (getRpcChannelName sha256 key raw));
                            ("error", JNull)] 200)) /\
  snd (invalidate sha256 socket config key def raw c log) =
    (log ++ [CallHandler Query key parsed;
             CallBroadcast (getRpcChannelName sha256 key parsed) "update" result])%list /\
  snd (batchInvalidate sha256 socket config key def raw c log) =
    (log ++ [CallHandler Query key parsed;
             CallBroadcast (getRpcChannelName sha256 key parsed) "update" result])%list /\
  (canonical raw = canonical parsed ->
   getRpcChannelName sha256 key raw = getRpcChannelName sha256 key parsed) /\
  (getRpcChannelName sha256 key raw = getRpcChannelName sha256 key parsed ->
   sha256 (canonical raw) = sha256 (canonical parsed)).
Proof.
  intros c canonical Hpath Hdef Hparse Hauth Hres. repeat split.
  - unfold handleRequest, registry_get. simpl. rewrite Hpath, Hdef. simpl.
    unfold bind at 1, tryCatch.
    rewrite (queryFn_runs config key def raw c true log parsed Hdef Hparse Hauth).
    fold c. rewrite Hres. reflexivity.
  - now apply invalidate_calls.
  - now apply batchInvalidate_calls.
  - unfold getRpcChannelName, canonical. now intros ->.
  - unfold getRpcChannelName, canonical. intros H.
    now do 3 apply string_app_inv_head in H.
Qed.

(** A request whose params carry a key the schema strips: the client is told
    one channel and updates are broadcast on another. *)
Lemma response_channel_vs_broadcast_channel_witness :
  let raw := JObj [("id", JStr "p7"); ("draft", JBool true)] in
  let parsed := JObj [("id", JStr "p7")] in
  let c := mkContext "/api/rpc/query" "getPost" raw in
  let canonical p := stableStringify (nullish p (JObj [])) in
  fst (handleRequest Demo.plainDigest Demo.socketUp Demo.config c []) =
    Resolved (Some (c_json [("data", Demo.postOf "p7");
                            ("channel",
                             JStr (getRpcChannelName Demo.plainDigest "getPost" raw));
                            ("error", JNull)] 200)) /\
  snd (invalidate Demo.plainDigest Demo.socketUp Demo.config "getPost" Demo.getPost raw c []) =
    ([] ++ [CallHandler Query "getPost" parsed;
            CallBroadcast (getRpcChannelName Demo.plainDigest "getPost" parsed)
              "update" (Demo.postOf "p7")])%list /\
  snd (batchInvalidate Demo.plainDigest Demo.socketUp Demo.config "getPost" Demo.getPost
         raw c []) =
    ([] ++ [CallHandler Query "getPost" parsed;
            CallBroadcast (getRpcChannelName Demo.plainDigest "getPost" parsed)
              "update" (Demo.postOf "p7")])%list /\
  (canonical raw = canonical parsed ->
   getRpcChannelName Demo.plainDigest "getPost" raw =
     getRpcChannelName Demo.plainDigest "getPost" parsed) /\
  (getRpcChannelName Demo.plainDigest "getPost" raw =
     getRpcChannelName Demo.plainDigest "getPost" parsed ->
   Demo.plainDigest (canonical raw) = Demo.plainDigest (canonical parsed)).
Proof.
  exact (response_channel_vs_broadcast_channel
           Demo.plainDigest Demo.socketUp Demo.config "/api/rpc/query" "getPost"
           Demo.getPost (JObj [("id", JStr "p7"); ("draft", JBool true)])
           (JObj [("id", JStr "p7")]) (Demo.postOf "p7") []
           eq_refl eq_refl eq_refl eq_refl eq_refl).
Defined.

(** ** Escaped strings and numbers can be read back *)

Lemma unescapeChar_escapeChar (c : ascii) (r : string) :
  unescapeChar (escapeChar c ++ r) = Some (c, r).
Proof. destruct c as [[] [] [] [] [] [] [] []]; reflexivity. Qed.

Lemma unescapeChar_quote (r : string) : unescapeChar (String dquote r) = None.
Proof. reflexivity. Qed.

Lemma escape_inj (s1 : string) :
  forall s2 r1 r2,
    escape s1 ++ String dquote r1 = escape s2 ++ String dquote r2 ->
    s1 = s2 /\ r1 = r2.
Proof.
  induction s1 as [|c1 s1 IH]; intros [|c2 s2] r1 r2; simpl.
  - intros [= ->]. now split.
  - rewrite string_app_assoc. intros H.
    apply (f_equal unescapeChar) in H.
    rewrite unescapeChar_escapeChar in H. discriminate.
  - rewrite string_app_assoc. intros H.
    apply (f_equal unescapeChar) in H.
    rewrite unescapeChar_escapeChar in H. discriminate.
  - rewrite !string_app_assoc. intros H.
    apply (f_equal unescapeChar) in H.
    rewrite !unescapeChar_escapeChar in H. injection H as -> H.
    apply IH in H. destruct H as [-> ->]. now split.
Qed.

Lemma QuoteJSONString_inj (s1 s2 r1 r2 : string) :
  QuoteJSONString s1 ++ r1 = QuoteJSONString s2 ++ r2 -> s1 = s2 /\ r1 = r2.
Proof.
  unfold QuoteJSONString. simpl. rewrite !string_app_assoc. simpl.
  intros [= H]. now apply escape_inj.
Qed.

Lemma allChars_uint (d : Decimal.uint) :
  allChars numChar (NilEmpty.string_of_uint d) = true.
Proof. induction d; simpl; auto. Qed.

Lemma Number_toString_chars (z : Z) :
  allChars numChar (Number_toString z) = true /\ Number_toString z <> "".
Proof.
  unfold Number_toString.
  destruct (Z.to_int z) as [d|d]; simpl.
  - destruct d; simpl; try (split; [apply allChars_uint | discriminate]).
    split; [reflexivity | discriminate].
  - split; [|discriminate].
    destruct d; simpl; try apply allChars_uint. reflexivity.
Qed.

Lemma delimited_not_numChar (c : ascii) (r : string) :
  delimited (String c r) -> numChar c = false.
Proof. simpl. intros [-> | ->]; reflexivity. Qed.

(** Two runs of number characters, each followed by a delimiter. *)
Lemma numChars_inj (a : string) :
  forall b r1 r2,
    allChars numChar a = true -> allChars numChar b = true ->
    delimited r1 -> delimited r2 ->
    a ++ r1 = b ++ r2 -> a = b /\ r1 = r2.
Proof.
  induction a as [|c a IH]; intros [|d b] r1 r2 Ha Hb H1 H2; simpl in *.
  - now intros ->.
  - intros ->. apply andb_true_iff in Hb. destruct Hb as [Hd _].
    apply delimited_not_numChar in H1. congruence.
  - intros <-. apply andb_true_iff in Ha. destruct Ha as [Hc _].
    apply delimited_not_numChar in H2. congruence.
  - intros [= -> H]. apply andb_true_iff in Ha, Hb.
    destruct (IH b r1 r2 (proj2 Ha) (proj2 Hb) H1 H2 H) as [-> ->]. now split.
Qed.

Lemma kindOf_app (s r : string) : s <> "" -> kindOf (s ++ r) = kindOf s.
Proof. destruct s; [congruence | reflexivity]. Qed.

Lemma kindOf_number (z : Z) : kindOf (Number_toString z) = 4.
Proof.
  destruct (Number_toString_chars z) as [Hc Hne].
  destruct (Number_toString z) as [|c r]; [congruence|].
  cbn [allChars] in Hc. apply andb_true_iff in Hc. destruct Hc as [Hc _].
  unfold kindOf. now rewrite Hc.
Qed.

Lemma kindOf_quoted (s : string) : kindOf (QuoteJSONString s) = 5.
Proof. reflexivity. Qed.

Lemma QuoteJSONString_nonempty (s : string) : QuoteJSONString s <> "".
Proof. discriminate. Qed.

(** ** Object texts can be read back *)

Lemma members_memberPairs (o : list (string * option string)) :
  members o = map memberText (memberPairs o).
Proof.
  unfold members, memberPairs.
  induction (Object_keys o) as [|k ks IH]; simpl; [reflexivity|].
  rewrite map_app, <- IH. now destruct (obj_get o k) as [[s|]|].
Qed.

Lemma concat_tailText (ms : list (string * string)) :
  forall m rest,
    (String.concat "," (map memberText (m :: ms)) ++ "}") ++ rest =
    memberText m ++ tailText ms rest.
Proof.
  induction ms as [|m' ms IH]; intros m rest.
  - simpl. now rewrite string_app_assoc.
  - change (String.concat "," (map memberText (m :: m' :: ms)))
      with (memberText m ++ "," ++ String.concat "," (map memberText (m' :: ms))).
    rewrite !string_app_assoc. f_equal.
    change (tailText (m' :: ms) rest) with ("," ++ memberText m' ++ tailText ms rest).
    rewrite <- IH. now rewrite !string_app_assoc.
Qed.

Lemma SerializeJSONObject_text (o : list (string * option string)) (rest : string) :
  SerializeJSONObject o ++ rest = objectText (memberPairs o) rest.
Proof.
  unfold SerializeJSONObject. rewrite members_memberPairs.
  destruct (memberPairs o) as [|m ms]; [reflexivity|].
  change (map memberText (m :: ms)) with (memberText m :: map memberText ms).
  cbv beta iota.
  change (memberText m :: map memberText ms) with (map memberText (m :: ms)).
  unfold objectText. rewrite <- concat_tailText. now rewrite !string_app_assoc.
Qed.

Lemma tailText_delimited (ms : list (string * string)) (rest : string) :
  delimited (tailText ms rest).
Proof. destruct ms; simpl; auto. Qed.

Lemma kindOf_object (ms : list (string * string)) (rest : string) :
  kindOf (objectText ms rest) = 6.
Proof. now destruct ms. Qed.

Lemma member_inj (m1 m2 : string * string) (t1 t2 : string) :
  selfDelimiting (snd m1) -> Serialised (snd m2) ->
  delimited t1 -> delimited t2 ->
  memberText m1 ++ t1 = memberText m2 ++ t2 -> m1 = m2 /\ t1 = t2.
Proof.
  intros Hsd Hser Ht1 Ht2. unfold memberText. rewrite !string_app_assoc. intros H.
  apply QuoteJSONString_inj in H. destruct H as [Hk H].
  simpl in H. injection H as H.
  destruct (Hsd _ _ _ Hser Ht1 Ht2 H) as [Hv Ht].
  split; [|exact Ht]. destruct m1, m2; simpl in *; congruence.
Qed.

Lemma tailText_inj (ms1 : list (string * string)) :
  forall ms2 r1 r2,
    (forall m, In m ms1 -> selfDelimiting (snd m)) ->
    (forall m, In m ms2 -> Serialised (snd m)) ->
    tailText ms1 r1 = tailText ms2 r2 -> ms1 = ms2 /\ r1 = r2.
Proof.
  induction ms1 as [|m1 ms1 IH]; intros [|m2 ms2] r1 r2 H1 H2; simpl;
    try discriminate.
  - intros [= ->]. now split.
  - intros H. apply (string_app_inv_head ",") in H.
    apply member_inj in H;
      [ | apply H1; now left | apply H2; now left
        | apply tailText_delimited | apply tailText_delimited ].
    destruct H as [-> H].
    apply IH in H; [| intros m Hm; apply H1; now right
                    | intros m Hm; apply H2; now right ].
    destruct H as [-> ->]. now split.
Qed.

Lemma objectText_inj (ms1 ms2 : list (string * string)) (r1 r2 : string) :
  (forall m, In m ms1 -> selfDelimiting (snd m)) ->
  (forall m, In m ms2 -> Serialised (snd m)) ->
  objectText ms1 r1 = objectText ms2 r2 -> ms1 = ms2 /\ r1 = r2.
Proof.
  intros H1 H2. destruct ms1 as [|m1 ms1], ms2 as [|m2 ms2]; simpl.
  - intros [= ->]. now split.
  - unfold memberText, QuoteJSONString. simpl. discriminate.
  - unfold memberText, QuoteJSONString. simpl. discriminate.
  - intros H. apply (string_app_inv_head "{") in H.
    apply member_inj in H;
      [ | apply H1; now left | apply H2; now left
        | apply tailText_delimited | apply tailText_delimited ].
    destruct H as [-> H].
    apply tailText_inj in H; [| intros m Hm; apply H1; now right
                              | intros m Hm; apply H2; now right ].
    destruct H as [-> ->]. now split.
Qed.

(** ** Where the members of a sorted object come from *)

Section Lookup.
Context {A : Type}.
Implicit Types (o acc : list (string * A)) (k : string).

Lemma obj_get_set acc k' v k :
  obj_get (obj_set acc k' v) k = if String.eqb k' k then Some v else obj_get acc k.
Proof.
  induction acc as [|[k0 v0] r IH]; simpl; [reflexivity|].
  destruct (String.eqb_spec k0 k') as [->|Hne]; simpl.
  - now destruct (String.eqb k' k).
  - rewrite IH. destruct (String.eqb_spec k0 k) as [->|Hne'].
    + destruct (String.eqb_spec k' k) as [->|]; [congruence | reflexivity].
    + reflexivity.
Qed.

Lemma obj_get_assign acc k' v k :
  obj_get (obj_assign acc k' v) k =
  if String.eqb k' "__proto__" then obj_get acc k
  else if String.eqb k' k then Some v else obj_get acc k.
Proof.
  unfold obj_assign. destruct (String.eqb k' "__proto__"); [reflexivity|].
  apply obj_get_set.
Qed.

Lemma obj_get_fold o (ks : list string) :
  forall acc k,
    k <> "__proto__" ->
    obj_get
      (fold_left
         (fun acc key =>
            match obj_get o key with
            | Some v => obj_assign acc key v
            | None => acc
            end) ks acc) k =
    match (if existsb (String.eqb k) ks then obj_get o k else None) with
    | Some v => Some v
    | None => obj_get acc k
    end.
Proof.
  induction ks as [|k0 ks IH]; intros acc k Hk; simpl; [reflexivity|].
  rewrite IH by exact Hk. rewrite (String.eqb_sym k k0).
  assert (obj_get
            (match obj_get o k0 with
             | Some v => obj_assign acc k0 v
             | None => acc
             end) k =
          if String.eqb k0 k
          then match obj_get o k with Some v => Some v | None => obj_get acc k end
          else obj_get acc k) as ->.
  { destruct (String.eqb_spec k0 k) as [->|Hne].
    - destruct (obj_get o k) as [v|]; [|reflexivity].
      rewrite obj_get_assign, String.eqb_refl.
      now destruct (String.eqb_spec k "__proto__").
    - destruct (obj_get o k0) as [v|]; [|reflexivity].
      rewrite obj_get_assign. destruct (String.eqb k0 "__proto__"); [reflexivity|].
      now destruct (String.eqb_spec k0 k). }
  destruct (String.eqb k0 k), (existsb (String.eqb k) ks), (obj_get o k);
    reflexivity.
Qed.

(** The object the replacer returns has no own property [__proto__]. *)
Lemma obj_get_fold_proto o (ks : list string) :
  forall acc,
    obj_get acc "__proto__" = None ->
    obj_get
      (fold_left
         (fun acc key =>
            match obj_get o key with
            | Some v => obj_assign acc key v
            | None => acc
            end) ks acc) "__proto__" = None.
Proof.
  induction ks as [|k0 ks IH]; intros acc Hacc; simpl; [exact Hacc|].
  apply IH. destruct (obj_get o k0) as [v|]; [|exact Hacc].
  rewrite obj_get_assign. destruct (String.eqb_spec k0 "__proto__") as [->|Hne].
  - exact Hacc.
  - destruct (String.eqb_spec k0 "__proto__"); [contradiction | exact Hacc].
Qed.

Lemma obj_get_sortedObj_proto o : obj_get (sortedObj o) "__proto__" = None.
Proof. unfold sortedObj. now apply obj_get_fold_proto. Qed.

(** The replacer moves properties around and changes none, apart from
    [__proto__], which it drops. *)
Lemma obj_get_sortedObj o k :
  k <> "__proto__" -> obj_get (sortedObj o) k = obj_get o k.
Proof.
  intros Hk. unfold sortedObj. rewrite obj_get_fold by exact Hk. simpl.
  destruct (existsb (String.eqb k) (sort String.leb (Object_keys o))) eqn:E.
  - now destruct (obj_get o k).
  - symmetry. apply obj_get_None. intros Hin.
    assert (existsb (String.eqb k) (sort String.leb (Object_keys o)) = true) as E';
      [|congruence].
    apply existsb_exists. exists k. split; [|apply String.eqb_refl].
    eapply Permutation_in; [apply sort_perm|].
    eapply Permutation_in; [symmetry; apply Object_keys_perm_keys | exact Hin].
Qed.

(** Whatever the replacer's result holds, the value held it. *)
Lemma obj_get_sortedObj_Some o k v :
  obj_get (sortedObj o) k = Some v -> obj_get o k = Some v.
Proof.
  destruct (String.eqb_spec k "__proto__") as [->|Hne].
  - now rewrite obj_get_sortedObj_proto.
  - now rewrite obj_get_sortedObj.
Qed.

Lemma In_Object_keys o k : In k (Object_keys o) <-> In k (map fst o).
Proof.
  split; apply Permutation_in;
    [apply Object_keys_perm_keys | symmetry; apply Object_keys_perm_keys].
Qed.
End Lookup.

Lemma In_memberPairs (o : list (string * option string)) (k s : string) :
  In (k, s) (memberPairs o) <-> textOf o k = Some s.
Proof.
  unfold memberPairs, textOf. rewrite in_flat_map. split.
  - intros [P [_ H]]. destruct (obj_get o P) as [[t|]|] eqn:E; try contradiction.
    destruct H as [[= -> ->]|[]]. now rewrite E.
  - intros H. destruct (obj_get o k) as [[t|]|] eqn:E; try discriminate.
    injection H as ->. exists k. rewrite E. split; [|now left].
    apply In_Object_keys. apply obj_get_In in E.
    apply in_map_iff. now exists (k, Some s).
Qed.

Lemma textOf_sortedObj (o : list (string * option string)) (k : string) :
  k <> "__proto__" -> textOf (sortedObj o) k = textOf o k.
Proof. intros Hk. unfold textOf. now rewrite obj_get_sortedObj. Qed.

Lemma textOf_sortedObj_proto (o : list (string * option string)) :
  textOf (sortedObj o) "__proto__" = None.
Proof. unfold textOf. now rewrite obj_get_sortedObj_proto. Qed.

Lemma textOf_sortedObj_Some (o : list (string * option string)) (k s : string) :
  textOf (sortedObj o) k = Some s -> textOf o k = Some s.
Proof.
  unfold textOf. destruct (obj_get (sortedObj o) k) as [[t|]|] eqn:E; try discriminate.
  intros [= ->]. now rewrite (obj_get_sortedObj_Some _ _ _ E).
Qed.

Lemma textOf_In (o : list (string * option string)) (k s : string) :
  textOf o k = Some s -> In (k, Some s) o.
Proof.
  unfold textOf. destruct (obj_get o k) as [[t|]|] eqn:E; try discriminate.
  intros [= ->]. now apply obj_get_In.
Qed.

(** The members written for an array or an object are texts of its
    elements or property values. *)
Lemma member_of_array (elems : list JsVal) (k s : string) :
  In (k, s) (memberPairs (sortedObj (arrayProps (map SerializeJSONProperty elems)))) ->
  exists x, In x elems /\ SerializeJSONProperty x = Some s.
Proof.
  rewrite In_memberPairs. intros H. apply textOf_sortedObj_Some, textOf_In in H.
  unfold arrayProps in H. apply in_combine_r in H.
  apply in_map_iff in H. destruct H as [x [Hx Hin]]. now exists x.
Qed.

Lemma member_of_object (props : list (string * JsVal)) (k s : string) :
  In (k, s)
    (memberPairs
       (sortedObj (map (fun kv => (fst kv, SerializeJSONProperty (snd kv))) props))) ->
  exists kv, In kv props /\ SerializeJSONProperty (snd kv) = Some s.
Proof.
  rewrite In_memberPairs. intros H. apply textOf_sortedObj_Some, textOf_In in H.
  apply in_map_iff in H. destruct H as [kv [[= _ Hs] Hin]]. now exists kv.
Qed.

(** ** Every serialised text is self-delimiting *)

Lemma string_app_nil_r (s : string) : s ++ "" = s.
Proof. induction s as [|c s IH]; simpl; [reflexivity | now rewrite IH]. Qed.

Lemma SerializeJSONObject_of_pairs (o1 o2 : list (string * option string)) :
  memberPairs o1 = memberPairs o2 -> SerializeJSONObject o1 = SerializeJSONObject o2.
Proof.
  intros H. unfold SerializeJSONObject. now rewrite !members_memberPairs, H.
Qed.

Lemma kindOf_number_app (z : Z) (rest : string) :
  kindOf (Number_toString z ++ rest) = 4.
Proof.
  rewrite kindOf_app; [apply kindOf_number | apply Number_toString_chars].
Qed.

Lemma kindOf_object_app (o : list (string * option string)) (rest : string) :
  kindOf (SerializeJSONObject o ++ rest) = 6.
Proof. rewrite SerializeJSONObject_text. apply kindOf_object. Qed.

(** The shapes a serialised text can have. *)
Lemma Serialised_cases (s : string) :
  Serialised s ->
  s = "null" \/ s = "true" \/ s = "false" \/
  (exists z, s = Number_toString z) \/
  (exists t, s = QuoteJSONString t) \/
  (exists o, s = SerializeJSONObject o /\
             forall m, In m (memberPairs o) -> Serialised (snd m)).
Proof.
  intros [w Hw]. destruct w as [| |[]|z|n|t|elems|props]; simpl in Hw;
    try discriminate; injection Hw as <-; auto 6.
  - do 3 right. left. now exists z.
  - do 4 right. left. now exists t.
  - do 5 right. eexists. split; [reflexivity|].
    intros [k s] Hin. apply member_of_array in Hin.
    destruct Hin as [x [_ Hx]]. now exists x.
  - do 5 right. eexists. split; [reflexivity|].
    intros [k s] Hin. apply member_of_object in Hin.
    destruct Hin as [kv [_ Hx]]. now exists (snd kv).
Qed.

(** Two texts of different kinds are not a prefix of one another. *)
Ltac other_kind H :=
  apply (f_equal kindOf) in H;
  rewrite ?kindOf_number_app, ?kindOf_object_app in H;
  simpl in H; discriminate H.

Ltac by_cases Hser :=
  destruct (Serialised_cases _ Hser)
    as [-> | [-> | [-> | [[z' ->] | [[t' ->] | [o' [-> Ho']]]]]]].

Lemma literal_selfDelimiting (s : string) :
  s = "null" \/ s = "true" \/ s = "false" -> selfDelimiting s.
Proof.
  intros Hs s' rest rest' Hser _ _ H.
  destruct Hs as [-> | [-> | ->]]; by_cases Hser; try other_kind H;
    apply string_app_inv_head in H; now split.
Qed.

Lemma number_selfDelimiting (z : Z) : selfDelimiting (Number_toString z).
Proof.
  intros s' rest rest' Hser Hr Hr' H. by_cases Hser; try other_kind H.
  apply numChars_inj in H; try apply Number_toString_chars; assumption.
Qed.

Lemma string_selfDelimiting (t : string) : selfDelimiting (QuoteJSONString t).
Proof.
  intros s' rest rest' Hser _ _ H. by_cases Hser; try other_kind H.
  apply QuoteJSONString_inj in H. destruct H as [-> ->]. now split.
Qed.

Lemma object_selfDelimiting (o : list (string * option string)) :
  (forall m, In m (memberPairs o) -> selfDelimiting (snd m)) ->
  selfDelimiting (SerializeJSONObject o).
Proof.
  intros Ho s' rest rest' Hser _ _ H. by_cases Hser; try other_kind H.
  rewrite !SerializeJSONObject_text in H.
  apply objectText_inj in H; [|exact Ho|exact Ho'].
  destruct H as [Hms ->]. split; [|reflexivity].
  now apply SerializeJSONObject_of_pairs.
Qed.

Theorem Serialize_selfDelimiting (v : JsVal) :
  forall s, SerializeJSONProperty v = Some s -> selfDelimiting s.
Proof.
  induction v as [| |[]|z|n|t|elems IH|props IH] using JsVal_induction;
    simpl; intros s Hs; try discriminate; injection Hs as <-.
  - apply literal_selfDelimiting. auto.
  - apply literal_selfDelimiting. auto.
  - apply literal_selfDelimiting. auto.
  - apply number_selfDelimiting.
  - apply literal_selfDelimiting. auto.
  - apply string_selfDelimiting.
  - apply object_selfDelimiting. intros [k s] Hin.
    apply member_of_array in Hin. destruct Hin as [x [Hin Hx]].
    rewrite Forall_forall in IH. now apply (IH x Hin).
  - apply object_selfDelimiting. intros [k s] Hin.
    apply member_of_object in Hin. destruct Hin as [kv [Hin Hx]].
    rewrite Forall_forall in IH. now apply (IH kv Hin).
Qed.

(** Two objects with the same text hold the same text under every key. *)
Lemma SerializeJSONObject_inj (o1 o2 : list (string * option string)) :
  (forall m, In m (memberPairs o1) -> Serialised (snd m)) ->
  (forall m, In m (memberPairs o2) -> Serialised (snd m)) ->
  SerializeJSONObject o1 = SerializeJSONObject o2 ->
  forall k, textOf o1 k = textOf o2 k.
Proof.
  intros H1 H2 H k.
  assert (memberPairs o1 = memberPairs o2) as Hms.
  { apply (f_equal (fun s => s ++ "")) in H.
    rewrite !SerializeJSONObject_text in H.
    apply objectText_inj in H; [tauto | | exact H2].
    intros m Hm. destruct (H1 m Hm) as [w Hw].
    now apply (Serialize_selfDelimiting w). }
  destruct (textOf o1 k) as [s|] eqn:E1.
  - symmetry. apply In_memberPairs. rewrite <- Hms. now apply In_memberPairs.
  - destruct (textOf o2 k) as [s|] eqn:E2; [|reflexivity].
    apply In_memberPairs in E2. rewrite <- Hms in E2.
    apply In_memberPairs in E2. congruence.
Qed.

(** ** Arrays are serialised position by position *)







Lemma object_members_Serialised (props : list (string * JsVal)) (m : string * string) :
  In m (memberPairs
          (sortedObj (map (fun kv => (fst kv, SerializeJSONProperty (snd kv))) props))) ->
  Serialised (snd m).
Proof.
  destruct m as [k s]. intros Hin. apply member_of_object in Hin.
  destruct Hin as [kv [_ Hx]]. now exists (snd kv).
Qed.



Lemma stableStringify_object (props : list (string * JsVal)) :
  stableStringify (JObj props) =
  SerializeJSONObject
    (sortedObj (map (fun kv => (fst kv, SerializeJSONProperty (snd kv))) props)).
Proof. reflexivity. Qed.








(** In that instance the two orders do get different canonical forms. *)
Example swapped_numbers_differ :
  stableStringify (JArr [JNum 1; JNum 2]) <> stableStringify (JArr [JNum 2; JNum 1]).
Proof. vm_compute. discriminate. Qed.

(** [NaN] and [null] are two more elements that serialise alike: exchanging
    them leaves the canonical form as it was. *)
Example not_finite_is_written_null :
  stableStringify (JArr [JNonFinite NaN; JNull]) =
  stableStringify (JArr [JNull; JNonFinite NaN]).
Proof. reflexivity. Qed.

(** ** Computations only add to the log *)

Lemma Framed_ret {A : Type} (a : A) : Framed (ret a).
Proof. intros log. unfold ret. simpl. now rewrite app_nil_r. Qed.

Lemma Framed_throw {A : Type} (e : JsError) : Framed (@throw A e).
Proof. intros log. unfold throw. simpl. now rewrite app_nil_r. Qed.

Lemma Framed_settle {A : Type} (o : Outcome A) : Framed (settle o).
Proof. intros log. unfold settle. simpl. now rewrite app_nil_r. Qed.

Lemma Framed_call (ev : Event) : Framed (call ev).
Proof. intros log. reflexivity. Qed.

Lemma Framed_bind {A B : Type} (m : M A) (k : A -> M B) :
  Framed m -> (forall a, Framed (k a)) -> Framed (bind m k).
Proof.
  intros Hm Hk log. unfold bind. rewrite (Hm log), (Hm []).
  destruct (fst (m [])) as [a|e]; simpl.
  - rewrite (Hk a (log ++ snd (m []))%list), (Hk a (snd (m []))). simpl.
    now rewrite app_assoc.
  - reflexivity.
Qed.

Lemma Framed_tryCatch {A : Type} (m : M A) : Framed m -> Framed (tryCatch m).
Proof.
  intros Hm log. unfold tryCatch. rewrite (Hm log).
  now destruct (m []).
Qed.

Lemma Framed_orThrow {A : Type} (null : A) (r : Outcome A) (mk : JsError -> JsError) :
  Framed (orThrow null r mk).
Proof.
  destruct r as [a|e]; [apply Framed_ret|]. simpl.
  destruct (truthy e); [apply Framed_throw | apply Framed_ret].
Qed.

Lemma Framed_invoke {A : Type} (ev : Event) (c : Called A) : Framed (invoke ev c).
Proof.
  unfold invoke. apply Framed_bind; [apply Framed_call|]. intros _.
  destruct c; [apply Framed_ret | apply Framed_throw].
Qed.

Lemma Framed_detached {A : Type} (m : M A) : Framed m -> Framed (detached m).
Proof. intros Hm log. unfold detached. now rewrite (Hm log). Qed.

Lemma Framed_promiseAllMap {A B : Type} (f : A -> M B) (xs : list A) :
  Framed (promiseAllMap f xs).
Proof. intros log. reflexivity. Qed.

(** [Promise.all] over tasks: the outcome is that of the tasks together, and
    the calls of each task are those it makes on its own. *)
Lemma promiseAllMap_run {A B : Type} (f : A -> M B) (xs : list A) (log : list Event) :
  promiseAllMap f xs log =
    (allOf (map (fun x => fst (f x [])) xs),
     (log ++ concurrently (map (fun x => snd (f x [])) xs))%list).
Proof. unfold promiseAllMap. now rewrite !map_map. Qed.

Lemma allOf_resolved {A B : Type} (g : A -> B) (xs : list A) :
  allOf (map (fun x => Resolved (g x)) xs) = Resolved (map g xs).
Proof. induction xs as [|x r IH]; simpl; [reflexivity | now rewrite IH]. Qed.

(** No call in any task: nothing is recorded. *)
Lemma concurrently_nothing {A : Type} (xs : list A) :
  concurrently (map (fun _ => []) xs) = [].
Proof.
  unfold concurrently.
  assert (forallb (fun t : list Event => match t with [] => true | _ => false end)
            (map (fun _ : A => []) xs) = true) as ->; [|reflexivity].
  induction xs as [|x r IH]; simpl; auto.
Qed.

Create HintDb framed.
#[export] Hint Resolve Framed_ret Framed_throw Framed_settle Framed_call
  Framed_tryCatch Framed_orThrow Framed_invoke Framed_detached
  Framed_promiseAllMap : framed.

Ltac framed :=
  repeat match goal with
    | |- Framed (bind _ _) => apply Framed_bind; [|intros ?]
    | |- Framed (tryCatch _) => apply Framed_tryCatch
    | |- Framed (detached _) => apply Framed_detached
    | |- Framed (match ?x with _ => _ end) => destruct x
    | |- Framed (if ?x then _ else _) => destruct x
    | |- Framed _ => solve [auto with framed]
    end.

Section FramedExecutors.
Variable sha256 : string -> string.
Variable socket : Socket.
Variable config : RPCConfig.

Lemma Framed_validateParams type key params :
  Framed (validateParams config type key params).
Proof. unfold validateParams. framed. Qed.

Lemma Framed_parseParams type name params :
  Framed (parseParams config type name params).
Proof. unfold parseParams. framed. apply Framed_validateParams. Qed.

Lemma Framed_authorize type name authorization parsed request withAuth :
  Framed (authorize type name authorization parsed request withAuth).
Proof. unfold authorize. framed. Qed.

Lemma Framed_runHandler type name handler parsed request :
  Framed (runHandler type name handler parsed request).
Proof. unfold runHandler. framed. Qed.

Lemma Framed_queryFn name def params request withAuth :
  Framed (queryFn config name def params request withAuth).
Proof.
  unfold queryFn. framed;
    auto using Framed_validateParams, Framed_parseParams, Framed_authorize,
      Framed_runHandler.
Qed.

Lemma Framed_socketBroadcast channel event data :
  Framed (socketBroadcast socket channel event data).
Proof. unfold socketBroadcast. framed. Qed.

Lemma Framed_invalidate name def params request :
  Framed (invalidate sha256 socket config name def params request).
Proof.
  unfold invalidate. framed;
    auto using Framed_validateParams, Framed_parseParams, Framed_runHandler,
      Framed_socketBroadcast.
Qed.

Lemma Framed_batchInvalidate name def params request :
  Framed (batchInvalidate sha256 socket config name def params request).
Proof.
  unfold batchInvalidate. framed;
    auto using Framed_validateParams, Framed_parseParams, Framed_runHandler,
      Framed_socketBroadcast.
Qed.

Lemma Framed_registeredQuery queryName : Framed (registeredQuery config queryName).
Proof. unfold registeredQuery. framed. Qed.

Lemma Framed_recomputeOne queryName request queryParam :
  Framed (recomputeOne sha256 socket config queryName request queryParam).
Proof.
  unfold recomputeOne. framed;
    auto using Framed_validateParams, Framed_registeredQuery, Framed_batchInvalidate.
Qed.

Lemma Framed_dispatchBatch broadcastBatch : Framed (dispatchBatch socket broadcastBatch).
Proof. unfold dispatchBatch. framed. Qed.

Lemma Framed_invalidateEntry mutationName parsed result request entry :
  Framed (invalidateEntry sha256 socket config mutationName parsed result request entry).
Proof.
  unfold invalidateEntry. framed;
    auto using Framed_validateParams, Framed_recomputeOne, Framed_dispatchBatch,
      Framed_registeredQuery, Framed_invalidate.
Qed.

Lemma Framed_fanOut mutationName def parsed result request :
  Framed (fanOut sha256 socket config mutationName def parsed result request).
Proof. unfold fanOut. framed. Qed.

Lemma Framed_mutationFn name def params request withAuth :
  Framed (mutationFn sha256 socket config name def params request withAuth).
Proof.
  unfold mutationFn. framed;
    auto using Framed_validateParams, Framed_parseParams, Framed_authorize,
      Framed_runHandler, Framed_fanOut, Framed_invalidateEntry.
Qed.

Lemma Framed_inheritedCall key params : Framed (inheritedCall key params).
Proof. unfold inheritedCall. framed. Qed.

Lemma Framed_handleRequest c : Framed (handleRequest sha256 socket config c).
Proof.
  unfold handleRequest. framed;
    auto using Framed_validateParams, Framed_queryFn, Framed_mutationFn,
      Framed_invalidateEntry, Framed_inheritedCall.
Qed.
End FramedExecutors.

(** ** More about the executors *)

Section ExecutorFacts.
Variable sha256 : string -> string.
Variable socket : Socket.
Variable config : RPCConfig.

(** X6.  [invalidate] on a query that validates and recomputes, with a transport
    that takes the update: the predicate of the query is not consulted, the
    result is broadcast once on the channel of the parsed params and
    returned. *)
Theorem invalidate_recomputes_and_broadcasts_once
    (name : string) (def : QueryDef) (raw parsed result : JsVal)
    (request : Context) (log : list Event) :
  obj_get (queries config) name = Some def ->
  q_params def raw = SafeParseSuccess parsed ->
  query def parsed request = Resolved result ->
  broadcast socket (getRpcChannelName sha256 name parsed) "update" result = Resolved tt ->
  invalidate sha256 socket config name def raw request log =
    (Resolved result,
     (log ++ [CallHandler Query name parsed;
              CallBroadcast (getRpcChannelName sha256 name parsed) "update" result])%list).
Proof.
  intros Hdef Hparse Hres Hsend.
  rewrite (invalidate_stages sha256 socket config name def raw request log parsed
             Hdef Hparse).
  now rewrite Hres; simpl; rewrite Hsend.
Qed.

(** X7.  A transport whose [broadcast] returns a promise that rejects with a
    truthy value (every Error object is one): [invalidate] and
    [batchInvalidate] fail with status 500 and their own message; the
    transport's error is dropped. *)
Theorem invalidate_transport_failure
    (name : string) (def : QueryDef) (raw parsed result : JsVal)
    (request : Context) (log : list Event) (e : JsError) :
  obj_get (queries config) name = Some def ->
  q_params def raw = SafeParseSuccess parsed ->
  query def parsed request = Resolved result ->
  broadcast socket (getRpcChannelName sha256 name parsed) "update" result = Rejected e ->
  truthy e = true ->
  fst (invalidate sha256 socket config name def raw request log) =
    Rejected (HTTPException 500 "Failed to broadcast update") /\
  fst (batchInvalidate sha256 socket config name def raw request log) =
    Rejected (HTTPException 500 "Failed to broadcast update").
Proof.
  intros Hdef Hparse Hres Hsend Ht. split.
  - rewrite (invalidate_stages sha256 socket config name def raw request log parsed
               Hdef Hparse).
    now rewrite Hres; simpl; rewrite Hsend; simpl; rewrite Ht.
  - rewrite (batchInvalidate_stages sha256 socket config name def raw request log parsed
               Hdef Hparse).
    now rewrite Hres; simpl; rewrite Hsend; simpl; rewrite Ht.
Qed.

(** X8.  A handler that throws, or whose promise rejects with a truthy value,
    while a query is recomputed: [invalidate] and [batchInvalidate] fail
    with that same value and the transport is not called. *)
Theorem invalidate_handler_failure
    (name : string) (def : QueryDef) (raw parsed : JsVal)
    (request : Context) (log : list Event) (e : JsError) :
  obj_get (queries config) name = Some def ->
  q_params def raw = SafeParseSuccess parsed ->
  query def parsed request = Thrown e \/
  (query def parsed request = Rejected e /\ truthy e = true) ->
  invalidate sha256 socket config name def raw request log =
    (Rejected e, (log ++ [CallHandler Query name parsed])%list) /\
  batchInvalidate sha256 socket config name def raw request log =
    (Rejected e, (log ++ [CallHandler Query name parsed])%list).
Proof.
  intros Hdef Hparse Hres.
  assert (handled (query def parsed request) = Rejected e) as Hh.
  { destruct Hres as [->|[-> Ht]]; simpl; [reflexivity | now rewrite Ht]. }
  split.
  - rewrite (invalidate_stages sha256 socket config name def raw request log parsed
               Hdef Hparse).
    now rewrite Hh.
  - rewrite (batchInvalidate_stages sha256 socket config name def raw request log parsed
               Hdef Hparse).
    now rewrite Hh.
Qed.



(** X10.  With [withAuth = false] the predicate of a query is not called, even if
    the definition has one: the handler is called once and the execution
    settles as the handler stage does, that is with the handler's result,
    with what the handler threw or rejected with when that is truthy, and
    with [null] when the handler's promise rejected with a falsy value. *)
Theorem queryFn_without_auth_skips_predicate
    (name : string) (def : QueryDef) (raw parsed : JsVal)
    (request : Context) (log : list Event) :
  obj_get (queries config) name = Some def ->
  q_params def raw = SafeParseSuccess parsed ->
  queryFn config name def raw request false log =
    (handled (query def parsed request), (log ++ [CallHandler Query name parsed])%list).
Proof.
  intros Hdef Hparse.
  rewrite (queryFn_runs config name def raw request false log parsed Hdef Hparse eq_refl).
  reflexivity.
Qed.

(** X11.  A predicate whose promise rejects with a truthy value: the query
    fails with 401, whatever the value, and its handler is not called; and,
    on its own, so does a mutation, whose invalidation does not start. *)
Theorem authorization_raise_gives_401 :
  (forall (name : string) (def : QueryDef) (raw parsed : JsVal) (request : Context)
          (log : list Event) (authz : JsVal -> Context -> Called bool) (e : JsError),
     obj_get (queries config) name = Some def ->
     q_params def raw = SafeParseSuccess parsed ->
     q_authorization def = Some authz ->
     authz parsed request = Rejected e ->
     truthy e = true ->
     queryFn config name def raw request true log =
       (Rejected (HTTPException 401 "Unauthorized"),
        (log ++ [CallAuthorization Query name parsed])%list)) /\
  (forall (name : string) (def : MutationDef) (raw parsed : JsVal) (request : Context)
          (log : list Event) (authz : JsVal -> Context -> Called bool) (e : JsError),
     obj_get (mutations config) name = Some def ->
     m_params def raw = SafeParseSuccess parsed ->
     m_authorization def = Some authz ->
     authz parsed request = Rejected e ->
     truthy e = true ->
     mutationFn sha256 socket config name def raw request true log =
       (Rejected (HTTPException 401 "Unauthorized"),
        (log ++ [CallAuthorization Mutation name parsed])%list)).
Proof.
  split.
  - intros name def raw parsed request log authz e Hdef Hparse Hauth He Ht.
    now apply queryFn_authorization_raises with (authz := authz) (e := e).
  - intros name def raw parsed request log authz e Hdef Hparse Hauth He Ht.
    rewrite (mutationFn_stages sha256 socket config name def raw request true log
               parsed Hdef Hparse).
    rewrite authorize_run. unfold authorizationCalls. now rewrite Hauth, He, Ht.
Qed.

(** X12.  A mutation whose handler throws, or whose handler's promise rejects
    with a truthy value, is rejected with that same value, and its
    invalidation map is not touched: no target parameters are computed, no
    query is recomputed, nothing is broadcast. *)
Theorem mutation_handler_failure_starts_no_fan_out
    (name : string) (def : MutationDef) (raw parsed : JsVal)
    (request : Context) (withAuth : bool) (log : list Event) (e : JsError) :
  obj_get (mutations config) name = Some def ->
  m_params def raw = SafeParseSuccess parsed ->
  authorizationPasses (m_authorization def) parsed request withAuth = true ->
  mutation def parsed request = Thrown e \/
  (mutation def parsed request = Rejected e /\ truthy e = true) ->
  mutationFn sha256 socket config name def raw request withAuth log =
    (Rejected e,
     (log ++ authorizationCalls Mutation name (m_authorization def) parsed withAuth
          ++ [CallHandler Mutation name parsed])%list).
Proof.
  intros Hdef Hparse Hauth Hres.
  assert (handled (mutation def parsed request) = Rejected e) as Hh.
  { destruct Hres as [->|[-> Ht]]; simpl; [reflexivity | now rewrite Ht]. }
  rewrite (mutationFn_stages sha256 socket config name def raw request withAuth log
             parsed Hdef Hparse).
  rewrite (authorize_passes _ _ _ _ _ _ _ Hauth). rewrite Hh.
  now rewrite <- app_assoc.
Qed.

(** X13.  A query request for a key that is neither registered nor the name of
    a property of [Object.prototype], to a server that has no query named
    [__proto__]: 400 with the key in the message, and no call is made.  The
    same, on its own, for a mutation request. *)
Theorem handleRequest_unknown_key :
  (forall (c : Context) (log : list Event),
     endsWith (req_pathname c) "/rpc/query" = true ->
     obj_get (queries config) (req_key c) = None ->
     inherited (req_key c) = false ->
     obj_get (queries config) "__proto__" = None ->
     handleRequest sha256 socket config c log =
       (Rejected (HTTPException 400 ("Unknown query type: " ++ req_key c)), log)) /\
  (forall (c : Context) (log : list Event),
     endsWith (req_pathname c) "/rpc/query" = false ->
     endsWith (req_pathname c) "/rpc/mutation" = true ->
     obj_get (mutations config) (req_key c) = None ->
     inherited (req_key c) = false ->
     obj_get (mutations config) "__proto__" = None ->
     handleRequest sha256 socket config c log =
       (Rejected (HTTPException 400 ("Unknown mutation: " ++ req_key c)), log)).
Proof.
  split.
  - intros c log Hq Hk Hi _. unfold handleRequest, registry_get.
    now rewrite Hq, Hk, Hi.
  - intros c log Hq Hm Hk Hi _. unfold handleRequest, registry_get.
    now rewrite Hq, Hm, Hk, Hi.
Qed.

(** X14.  A query request for a registered key is the query executor run with
    authorization, its result wrapped with the channel of the raw params;
    what the executor rejects with is thrown on unchanged when it is truthy,
    and a rejection with a falsy value is answered as a result of [null]. *)
Theorem handleRequest_query_is_queryFn (c : Context) (def : QueryDef) (log : list Event) :
  endsWith (req_pathname c) "/rpc/query" = true ->
  obj_get (queries config) (req_key c) = Some def ->
  let respond result :=
    Resolved (Some (c_json [("data", result);
                            ("channel",
                             JStr (getRpcChannelName sha256 (req_key c) (req_params c)));
                            ("error", JNull)] 200)) in
  handleRequest sha256 socket config c log =
    (match fst (queryFn config (req_key c) def (req_params c) c true log) with
     | Resolved result => respond result
     | Rejected e => if truthy e then Rejected e else respond JNull
     end,
     snd (queryFn config (req_key c) def (req_params c) c true log)).
Proof.
  intros Hq Hk respond. unfold handleRequest, registry_get. rewrite Hq, Hk. simpl.
  unfold bind, tryCatch, orThrow, ret, throw.
  destruct (queryFn config (req_key c) def (req_params c) c true log) as [[r|e] l];
    [reflexivity|].
  simpl. now destruct (truthy e).
Qed.

(** X15.  A mutation request answers [{ success: true, data, error: null }] with
    the handler's result; a [null] result is sent as [undefined]. *)
Theorem handleRequest_mutation_response
    (c : Context) (def : MutationDef) (parsed result : JsVal) (log : list Event) :
  endsWith (req_pathname c) "/rpc/query" = false ->
  endsWith (req_pathname c) "/rpc/mutation" = true ->
  obj_get (mutations config) (req_key c) = Some def ->
  m_params def (req_params c) = SafeParseSuccess parsed ->
  authorizationPasses (m_authorization def) parsed c true = true ->
  mutation def parsed c = Resolved result ->
  fst (handleRequest sha256 socket config c log) =
    Resolved (Some (c_json [("success", JBool true);
                            ("data", match result with
                                     | JNull => JUndefined
                                     | _ => result
                                     end);
                            ("error", JNull)] 200)).
Proof.
  intros Hq Hm Hk Hparse Hauth Hres. unfold handleRequest, registry_get.
  rewrite Hq, Hm, Hk. simpl.
  pose proof (mutation_returns_handler_result_general sha256 socket config
                (req_key c) def (req_params c) parsed result c true log
                Hk Hparse Hauth Hres) as H.
  unfold bind at 1, tryCatch.
  destruct (mutationFn sha256 socket config (req_key c) def (req_params c) c true log)
    as [o l]. simpl in H. subst o. simpl. now destruct result.
Qed.

(** X25.  A handler whose promise rejects with a falsy value ([undefined],
    [null], [false], [0] or the empty string): the test [if (error)] lets it
    pass, and the query execution resolves with [null]. *)
Theorem handler_falsy_rejection_resolves_null
    (name : string) (def : QueryDef) (raw parsed : JsVal)
    (request : Context) (withAuth : bool) (log : list Event) (e : JsError) :
  obj_get (queries config) name = Some def ->
  q_params def raw = SafeParseSuccess parsed ->
  authorizationPasses (q_authorization def) parsed request withAuth = true ->
  query def parsed request = Rejected e ->
  truthy e = false ->
  queryFn config name def raw request withAuth log =
    (Resolved JNull,
     (log ++ authorizationCalls Query name (q_authorization def) parsed withAuth
          ++ [CallHandler Query name parsed])%list).
Proof.
  intros Hdef Hparse Hauth Hres Ht.
  rewrite (queryFn_runs config name def raw request withAuth log parsed Hdef Hparse Hauth).
  now rewrite Hres; simpl; rewrite Ht.
Qed.

(** X26.  A predicate whose promise rejects with a falsy value does not stop a
    query: no 401, the handler is called, and the execution settles as the
    handler stage does. *)
Theorem predicate_falsy_rejection_passes
    (name : string) (def : QueryDef) (raw parsed : JsVal) (request : Context)
    (log : list Event) (authz : JsVal -> Context -> Called bool) (e : JsError) :
  obj_get (queries config) name = Some def ->
  q_params def raw = SafeParseSuccess parsed ->
  q_authorization def = Some authz ->
  authz parsed request = Rejected e ->
  truthy e = false ->
  queryFn config name def raw request true log =
    (handled (query def parsed request),
     (log ++ [CallAuthorization Query name parsed; CallHandler Query name parsed])%list).
Proof.
  intros Hdef Hparse Hauth He Ht.
  rewrite (queryFn_stages config name def raw request true log parsed Hdef Hparse).
  rewrite authorize_run. unfold authorizationCalls. rewrite Hauth, He, Ht.
  rewrite runHandler_handled. now rewrite <- app_assoc.
Qed.

(** X27.  A predicate that throws instead of returning a promise: the call is
    made before [tryCatch] is entered, so the query fails with what was
    thrown, not with 401; the handler is not called. *)
Theorem predicate_throw_is_not_caught
    (name : string) (def : QueryDef) (raw parsed : JsVal) (request : Context)
    (log : list Event) (authz : JsVal -> Context -> Called bool) (e : JsError) :
  obj_get (queries config) name = Some def ->
  q_params def raw = SafeParseSuccess parsed ->
  q_authorization def = Some authz ->
  authz parsed request = Thrown e ->
  queryFn config name def raw request true log =
    (Rejected e, (log ++ [CallAuthorization Query name parsed])%list).
Proof.
  intros Hdef Hparse Hauth He.
  rewrite (queryFn_stages config name def raw request true log parsed Hdef Hparse).
  rewrite authorize_run. unfold authorizationCalls. now rewrite Hauth, He.
Qed.

(** X28.  A query request for the key [toString], where no query of that name
    and none named [__proto__] is registered: the registry is an object
    created by [{}], so the lookup finds [Object.prototype.toString]; it is
    called, and the request is answered 200 with its result as data, without
    any call to a handler. *)
Theorem inherited_key_is_served (c : Context) (log : list Event) :
  endsWith (req_pathname c) "/rpc/query" = true ->
  req_key c = "toString" ->
  obj_get (queries config) "toString" = None ->
  obj_get (queries config) "__proto__" = None ->
  handleRequest sha256 socket config c log =
    (Resolved (Some (c_json [("data", JStr "[object Undefined]");
                             ("channel",
                              JStr (getRpcChannelName sha256 "toString" (req_params c)));
                             ("error", JNull)] 200)),
     log).
Proof.
  intros Hq Hkey Hk _. unfold handleRequest, registry_get.
  now rewrite Hq, Hkey, Hk.
Qed.
End ExecutorFacts.

(** ** The fan-out, entry by entry *)

Section FanOutFacts.
Variable sha256 : string -> string.
Variable socket : Socket.
Variable config : RPCConfig.

(** One element of an array target, in terms of its [batchInvalidate]. *)
Lemma recomputeOne_run (queryName : string) (def : QueryDef) (request : Context) :
  obj_get (queries config) queryName = Some def ->
  forall elem log,
    recomputeOne sha256 socket config queryName request elem log =
      (match fst (batchInvalidate sha256 socket config queryName def elem request []) with
       | Resolved data => Resolved (mkBatchOutcome true (Some (snd data)) (fst data))
       | Rejected e =>
           if truthy e then Resolved (mkBatchOutcome false None JNull)
           else Rejected TypeError
       end,
       (log ++ snd (batchInvalidate sha256 socket config queryName def elem request []))%list).
Proof.
  intros Hdef elem log. unfold recomputeOne, registeredQuery. rewrite Hdef.
  unfold bind at 1, ret at 1. unfold bind, tryCatch.
  rewrite (Framed_batchInvalidate sha256 socket config queryName def elem request log).
  destruct (fst (batchInvalidate sha256 socket config queryName def elem request []))
    as [data|e]; [reflexivity|].
  now destruct (truthy e).
Qed.

(** A recomputation that rejects does so with a TypeError, whatever the
    element: the reason of the [Promise.all] over the elements does not
    depend on which of them rejects first. *)
Lemma recomputeOne_rejects_TypeError (queryName : string) (request : Context)
    (elem : JsVal) (log : list Event) (e : JsError) :
  fst (recomputeOne sha256 socket config queryName request elem log) = Rejected e ->
  e = TypeError.
Proof.
  unfold recomputeOne, registeredQuery.
  destruct (obj_get (queries config) queryName) as [def|]; [|now intros [= <-]].
  unfold bind at 1, ret at 1. unfold bind, tryCatch.
  destruct (batchInvalidate sha256 socket config queryName def elem request log)
    as [[data|e'] l]; simpl; [discriminate|].
  destruct (truthy e'); simpl; [discriminate | now intros [= <-]].
Qed.

(** The outcomes of the elements, put together by [Promise.all]. *)
Lemma allOf_recomputed {A : Type} (recomputed : A -> Outcome (JsVal * string))
    (elems : list A) :
  allOf (map (fun elem =>
                match recomputed elem with
                | Resolved data => Resolved (mkBatchOutcome true (Some (snd data)) (fst data))
                | Rejected e =>
                    if truthy e then Resolved (mkBatchOutcome false None JNull)
                    else Rejected TypeError
                end) elems) =
  if existsb (fun elem => rejectsFalsy (recomputed elem)) elems
  then Rejected TypeError
  else Resolved (map (fun elem =>
                        match recomputed elem with
                        | Resolved data => mkBatchOutcome true (Some (snd data)) (fst data)
                        | Rejected _ => mkBatchOutcome false None JNull
                        end) elems).
Proof.
  induction elems as [|x r IH]; [reflexivity|]. simpl. rewrite IH.
  destruct (recomputed x) as [data|e]; simpl.
  - now destruct (existsb _ r).
  - destruct (truthy e); simpl; [|reflexivity]. now destruct (existsb _ r).
Qed.

Lemma toBroadcast_of_outcomes {A : Type} (recomputed : A -> Outcome (JsVal * string))
    (elems : list A) :
  toBroadcast (map (fun elem =>
                      match recomputed elem with
                      | Resolved data => mkBatchOutcome true (Some (snd data)) (fst data)
                      | Rejected _ => mkBatchOutcome false None JNull
                      end) elems) =
  match flat_map (fun elem => batchItem (recomputed elem)) elems with
  | [] => []
  | items => [items]
  end.
Proof.
  unfold toBroadcast. rewrite flat_map_concat_map, map_map, <- flat_map_concat_map.
  assert (forall elem,
            (let b := match recomputed elem with
                      | Resolved data => mkBatchOutcome true (Some (snd data)) (fst data)
                      | Rejected _ => mkBatchOutcome false None JNull
                      end in
             match bo_success b, bo_channel b with
             | true, Some channel => [mkBroadcast channel "update" (bo_result b)]
             | _, _ => []
             end) = batchItem (recomputed elem)) as Hsel.
  { intros elem. unfold batchItem. now destruct (recomputed elem) as [[result channel]|e]. }
  rewrite (flat_map_ext _ _ Hsel).
  destruct (flat_map _ elems) as [|b r]; [reflexivity|].
  simpl. unfold groupStep at 2. simpl. now rewrite fold_groupStep.
Qed.

(** X16.  An array target of a registered query.  Every element is recomputed
    by [batchInvalidate], as a task of its own.  Then, unless one of those
    promises rejected with a falsy value (the entry fails there), one
    [batchBroadcast] call carries, in the order of the elements, the updates
    of exactly the elements whose [batchInvalidate] resolved; if none did,
    the call is not made. *)
Theorem array_target_sends_the_successful_elements
    (mutationName queryName : string) (def : QueryDef)
    (invalidateParamsFn : JsVal -> JsVal -> Called JsVal)
    (parsed result : JsVal) (elems : list JsVal) (request : Context)
    (log : list Event) :
  obj_get (queries config) queryName = Some def ->
  invalidateParamsFn parsed result = Resolved (JArr elems) ->
  let recomputed elem :=
    batchInvalidate sha256 socket config queryName def elem request [] in
  snd (invalidateEntry sha256 socket config mutationName parsed result request
         (queryName, Some invalidateParamsFn) log) =
    (log ++ [CallInvalidateParams mutationName queryName]
         ++ concurrently (map (fun elem => snd (recomputed elem)) elems)
         ++ if existsb (fun elem => rejectsFalsy (fst (recomputed elem))) elems then []
            else match flat_map (fun elem => batchItem (fst (recomputed elem))) elems with
                 | [] => []
                 | items => [Concurrently [[CallBatchBroadcast items]]]
                 end)%list.
Proof.
  intros Hdef Hfn recomputed. unfold invalidateEntry. cbn [fst snd].
  unfold bind at 1, invoke, bind at 1, call. rewrite Hfn.
  unfold ret at 1, bind at 1, tryCatch at 1, settle, bind at 1, orThrow at 1, ret at 1.
  unfold bind at 1. rewrite promiseAllMap_run.
  rewrite (map_ext _ _ (fun elem => f_equal fst (recomputeOne_run queryName def request
                                                    Hdef elem []))).
  rewrite (map_ext (fun x => snd (recomputeOne sha256 socket config queryName request x []))
             _ (fun elem => f_equal snd (recomputeOne_run queryName def request
                                          Hdef elem []))).
  cbn [fst snd app].
  pose proof (allOf_recomputed (fun elem => fst (recomputed elem)) elems) as Hall.
  pose proof (toBroadcast_of_outcomes (fun elem => fst (recomputed elem)) elems) as Hto.
  unfold recomputed in *. cbv beta in Hall, Hto. rewrite Hall. clear Hall.
  destruct (existsb _ elems).
  - simpl. now rewrite app_nil_r, <- app_assoc.
  - unfold bind at 1. rewrite promiseAllMap_run. rewrite Hto. clear Hto.
    destruct (flat_map _ elems) as [|b r]; simpl.
    + rewrite !app_nil_r, <- app_assoc. now destruct (forallb bo_success _).
    + unfold dispatchBatch, invoke, bind, call, tryCatch, settle, ret, throw.
      rewrite <- !app_assoc.
      destruct (batchBroadcast socket (b :: r)) as [[[]|e]|e]; simpl;
        try destruct (truthy e); simpl;
        try match goal with
            | |- context [forallb bo_success ?l] => destruct (forallb bo_success l)
            end; reflexivity.
Qed.

(** X17.  A target that is one parameter set, of a registered query that
    validates and recomputes: the entry calls the handler once and
    broadcasts once, on the channel of the parsed target params. *)
Theorem scalar_target_broadcasts_once
    (mutationName queryName : string) (def : QueryDef)
    (invalidateParamsFn : JsVal -> JsVal -> Called JsVal)
    (parsed result queryParams targetParsed targetResult : JsVal)
    (request : Context) (log : list Event) :
  obj_get (queries config) queryName = Some def ->
  invalidateParamsFn parsed result = Resolved queryParams ->
  Array_isArray queryParams = false ->
  q_params def queryParams = SafeParseSuccess targetParsed ->
  query def targetParsed request = Resolved targetResult ->
  snd (invalidateEntry sha256 socket config mutationName parsed result request
         (queryName, Some invalidateParamsFn) log) =
    (log ++ [CallInvalidateParams mutationName queryName;
             CallHandler Query queryName targetParsed;
             CallBroadcast (getRpcChannelName sha256 queryName targetParsed)
               "update" targetResult])%list.
Proof.
  intros Hdef Hfn Harr Hparse Hres. unfold invalidateEntry. cbn [fst snd].
  unfold bind at 1, invoke, bind at 1, call. rewrite Hfn.
  unfold ret at 1, bind at 1, tryCatch at 1, settle, bind at 1, orThrow at 1, ret at 1.
  assert (forall (A : Type) (k : list JsVal -> M A) (d : M A),
            match queryParams with JArr elems => k elems | _ => d end = d) as Hscalar
    by (intros A k d; destruct queryParams; try reflexivity; discriminate).
  rewrite Hscalar. unfold registeredQuery. rewrite Hdef.
  unfold bind at 1, ret at 1. unfold bind at 1, tryCatch.
  pose proof (invalidate_calls sha256 socket config queryName def queryParams request
                (log ++ [CallInvalidateParams mutationName queryName])%list
                targetParsed targetResult Hdef Hparse Hres) as Hcalls.
  destruct (invalidate sha256 socket config queryName def queryParams request _)
    as [o l]. simpl in Hcalls. subst l.
  rewrite <- app_assoc. unfold bind, orThrow, ret, throw.
  destruct o as [v|e]; [reflexivity|]. now destruct (truthy e).
Qed.

(** X18.  A target query that is not registered: once the target parameters are
    computed nothing more is called, neither a handler nor the transport. *)
Theorem unregistered_target_calls_nothing
    (mutationName queryName : string)
    (invalidateParamsFn : JsVal -> JsVal -> Called JsVal)
    (parsed result queryParams : JsVal) (request : Context) (log : list Event) :
  obj_get (queries config) queryName = None ->
  invalidateParamsFn parsed result = Resolved queryParams ->
  snd (invalidateEntry sha256 socket config mutationName parsed result request
         (queryName, Some invalidateParamsFn) log) =
    (log ++ [CallInvalidateParams mutationName queryName])%list.
Proof.
  intros Hdef Hfn. unfold invalidateEntry. cbn [fst snd].
  unfold bind at 1, invoke, bind at 1, call. rewrite Hfn.
  unfold ret at 1, bind at 1, tryCatch at 1, settle, bind at 1, orThrow at 1, ret at 1.
  destruct queryParams; try (unfold registeredQuery; rewrite Hdef; reflexivity).
  unfold bind at 1. rewrite promiseAllMap_run.
  assert (forall x, recomputeOne sha256 socket config queryName request x [] =
                    (Rejected TypeError, [])) as Hone
    by (intros x; unfold recomputeOne, registeredQuery; now rewrite Hdef).
  rewrite (map_ext _ _ (fun x => f_equal fst (Hone x))).
  rewrite (map_ext (fun x => snd (recomputeOne sha256 socket config queryName request x []))
             _ (fun x => f_equal snd (Hone x))).
  cbn [fst snd]. rewrite concurrently_nothing, app_nil_r.
  destruct elems as [|x r]; [|reflexivity].
  cbn. now rewrite ?app_nil_r.
Qed.
End FanOutFacts.

(** ** The fan-out as a whole *)


(** ** The builder *)

Lemma obj_get_fold_set {A : Type} (o : list (string * A)) (ks : list string) :
  forall acc k,
    obj_get
      (fold_left
         (fun acc key =>
            match obj_get o key with
            | Some v => obj_set acc key v
            | None => acc
            end) ks acc) k =
    match (if existsb (String.eqb k) ks then obj_get o k else None) with
    | Some v => Some v
    | None => obj_get acc k
    end.
Proof.
  induction ks as [|k0 ks IH]; intros acc k; simpl; [reflexivity|].
  rewrite IH. rewrite (String.eqb_sym k k0).
  assert (obj_get
            (match obj_get o k0 with
             | Some v => obj_set acc k0 v
             | None => acc
             end) k =
          if String.eqb k0 k
          then match obj_get o k with Some v => Some v | None => obj_get acc k end
          else obj_get acc k) as ->.
  { destruct (String.eqb_spec k0 k) as [->|Hne].
    - destruct (obj_get o k) as [v|]; [|reflexivity].
      now rewrite obj_get_set, String.eqb_refl.
    - destruct (obj_get o k0) as [v|]; [|reflexivity].
      rewrite obj_get_set. now destruct (String.eqb_spec k0 k). }
  destruct (String.eqb k0 k), (existsb (String.eqb k) ks), (obj_get o k);
    reflexivity.
Qed.

Lemma obj_get_spread {A : Type} (target src : list (string * A)) (k : string) :
  obj_get (spread target src) k =
  match obj_get src k with
  | Some v => Some v
  | None => obj_get target k
  end.
Proof.
  unfold spread. rewrite obj_get_fold_set.
  destruct (existsb (String.eqb k) (Object_keys src)) eqn:E; [reflexivity|].
  assert (obj_get src k = None) as ->; [|reflexivity].
  apply obj_get_None. intros Hin.
  assert (existsb (String.eqb k) (Object_keys src) = true) as E'; [|congruence].
  apply existsb_exists. exists k. split; [|apply String.eqb_refl].
  now apply In_Object_keys.
Qed.

(** X20.  After [addQuery(key, def)] the builder holds [def] under [key], whatever
    it held there before, every other query as before, and the same
    mutations; likewise for [addMutation]. *)
Theorem builder_add_then_lookup
    (this : LiveRPCBuilder) (key : string) (qdef : QueryDef) (mdef : MutationDef)
    (k : string) :
  obj_get (queries (build (addQuery this key qdef))) k =
    (if String.eqb key k then Some qdef else obj_get (builder_queries this) k) /\
  mutations (build (addQuery this key qdef)) = builder_mutations this /\
  obj_get (mutations (build (addMutation this key mdef))) k =
    (if String.eqb key k then Some mdef else obj_get (builder_mutations this) k) /\
  queries (build (addMutation this key mdef)) = builder_queries this.
Proof.
  repeat split; simpl; rewrite obj_get_set, obj_get_spread; simpl;
    destruct (String.eqb key k); try reflexivity;
    now destruct (obj_get _ k).
Qed.

(** X21.  [merge]: a name both builders define gets the definition of the builder
    passed as argument; every other name keeps its definition. *)
Theorem builder_merge_lookup (this other : LiveRPCBuilder) (k : string) :
  obj_get (queries (build (merge this other))) k =
    match obj_get (builder_queries other) k with
    | Some def => Some def
    | None => obj_get (builder_queries this) k
    end /\
  obj_get (mutations (build (merge this other))) k =
    match obj_get (builder_mutations other) k with
    | Some def => Some def
    | None => obj_get (builder_mutations this) k
    end.
Proof.
  split; simpl; rewrite !obj_get_spread; simpl;
    destruct (obj_get _ k); try reflexivity; now destruct (obj_get _ k).
Qed.

(** X22.  A [LiveRPC] made from a builder serves, under a name, the query that was
    added last under it. *)
Theorem request_reaches_the_query_added_last
    (sha256 : string -> string) (socket : Socket) (this : LiveRPCBuilder)
    (def : QueryDef) (c : Context) (log : list Event) :
  endsWith (req_pathname c) "/rpc/query" = true ->
  let config := builtConfig (Builder (addQuery this (req_key c) def)) in
  let respond result :=
    Resolved (Some (c_json [("data", result);
                            ("channel",
                             JStr (getRpcChannelName sha256 (req_key c) (req_params c)));
                            ("error", JNull)] 200)) in
  handleRequest sha256 socket config c log =
    (match fst (queryFn config (req_key c) def (req_params c) c true log) with
     | Resolved result => respond result
     | Rejected e => if truthy e then Rejected e else respond JNull
     end,
     snd (queryFn config (req_key c) def (req_params c) c true log)).
Proof.
  intros Hq config respond.
  assert (obj_get (queries config) (req_key c) = Some def) as Hk.
  { unfold config. simpl. rewrite obj_get_set. now rewrite String.eqb_refl. }
  unfold handleRequest, registry_get. rewrite Hq, Hk. simpl.
  unfold bind, tryCatch, orThrow, ret, throw.
  destruct (queryFn config (req_key c) def (req_params c) c true log) as [[r|e] l];
    [reflexivity|].
  simpl. now destruct (truthy e).
Qed.

(** ** Texts of one length *)

Lemma string_length_app (a b : string) :
  String.length (a ++ b) = String.length a + String.length b.
Proof. induction a as [|c a IH]; simpl; [reflexivity | now rewrite IH]. Qed.

Lemma string_app_inv_length (a : string) :
  forall b t u,
    String.length t = String.length u -> a ++ t = b ++ u -> a = b /\ t = u.
Proof.
  induction a as [|c a IH]; intros [|d b] t u Hlen H; simpl in H.
  - now split.
  - subst t. simpl in Hlen. rewrite string_length_app in Hlen. lia.
  - subst u. simpl in Hlen. rewrite string_length_app in Hlen. lia.
  - injection H as -> H. destruct (IH b t u Hlen H) as [-> ->]. now split.
Qed.

(** ** Sorting and filtering commute *)

Section SortFilter.
Context {A : Type} (leb : A -> A -> bool) (P : A -> bool).
Hypothesis leb_total : forall x y, leb x y = true \/ leb y x = true.
Hypothesis leb_trans : forall x y z, holds leb x y -> holds leb y z -> holds leb x z.

Lemma insert_below (x : A) (l : list A) :
  Forall (holds leb x) l -> insert leb x l = x :: l.
Proof.
  destruct l as [|y r]; [reflexivity|]. intros H. inversion H as [|? ? Hy _]; subst.
  simpl. unfold holds in Hy. now rewrite Hy.
Qed.

Lemma filter_insert (x : A) (l : list A) :
  StronglySorted (holds leb) l ->
  filter P (insert leb x l) =
  if P x then insert leb x (filter P l) else filter P l.
Proof.
  induction 1 as [|y r Hr IH Hy].
  - simpl. now destruct (P x).
  - cbn [insert]. destruct (leb x y) eqn:E.
    + change (filter P (x :: y :: r))
        with (if P x then x :: filter P (y :: r) else filter P (y :: r)).
      destruct (P x); [|reflexivity].
      symmetry. apply insert_below.
      assert (Forall (holds leb x) (y :: r)) as Hall.
      { constructor; [exact E|]. eapply Forall_impl; [|exact Hy].
        intros z Hz. now apply leb_trans with y. }
      rewrite Forall_forall in *. intros z Hz. apply Hall.
      now apply filter_In in Hz.
    + change (filter P (y :: insert leb x r))
        with (if P y then y :: filter P (insert leb x r)
              else filter P (insert leb x r)).
      rewrite IH.
      change (filter P (y :: r)) with (if P y then y :: filter P r else filter P r).
      destruct (P y), (P x); try reflexivity.
      cbn [insert]. now rewrite E.
Qed.

Lemma filter_sort (l : list A) :
  filter P (sort leb l) = sort leb (filter P l).
Proof.
  induction l as [|x r IH]; [reflexivity|]. simpl.
  rewrite filter_insert by (now apply sort_sorted).
  rewrite IH. now destruct (P x).
Qed.
End SortFilter.

Lemma indexLeb_total (a b : N * string) : indexLeb a b = true \/ indexLeb b a = true.
Proof. unfold indexLeb. rewrite !N.leb_le. lia. Qed.

Lemma indexLeb_trans (a b c : N * string) :
  holds indexLeb a b -> holds indexLeb b c -> holds indexLeb a c.
Proof. unfold holds, indexLeb. rewrite !N.leb_le. lia. Qed.

(** ** The keys of a sorted object *)

Lemma Object_keys_orderedKeys {A : Type} (o : list (string * A)) :
  Object_keys o = orderedKeys (map fst o).
Proof. reflexivity. Qed.

Lemma filter_comm {A : Type} (P Q : A -> bool) (l : list A) :
  filter Q (filter P l) = filter P (filter Q l).
Proof.
  induction l as [|x r IH]; [reflexivity|]. simpl.
  destruct (P x) eqn:E1, (Q x) eqn:E2; simpl; rewrite ?E1, ?E2, IH; reflexivity.
Qed.

Lemma orderedKeys_filter (P : string -> bool) (ks : list string) :
  orderedKeys (filter P ks) = filter P (orderedKeys ks).
Proof.
  unfold orderedKeys. rewrite filter_app. f_equal.
  - assert (indexKeys (filter P ks) = filter (fun p => P (snd p)) (indexKeys ks)) as ->.
    { unfold indexKeys. induction ks as [|k r IH]; [reflexivity|]. simpl.
      destruct (P k) eqn:E; simpl.
      - rewrite IH. destruct (arrayIndex k); simpl; [now rewrite E | reflexivity].
      - rewrite IH. destruct (arrayIndex k); simpl; [now rewrite E | reflexivity]. }
    rewrite <- (filter_sort indexLeb _ indexLeb_total indexLeb_trans).
    generalize (sort indexLeb (indexKeys ks)) as l. intros l.
    induction l as [|p r IH]; [reflexivity|]. simpl.
    destruct (P (snd p)); simpl; now rewrite IH.
  - unfold nameKeys. apply filter_comm.
Qed.

Section SortedKeys.
Context {A : Type}.
Implicit Types (t acc : list (string * A)) (k : string).

Lemma map_fst_obj_set_fresh acc k (v : A) :
  ~ In k (map fst acc) -> map fst (obj_set acc k v) = (map fst acc ++ [k])%list.
Proof.
  induction acc as [|[k' v'] r IH]; simpl; [reflexivity|]. intros Hk.
  destruct (String.eqb_spec k' k) as [->|Hne]; [tauto|].
  simpl. rewrite IH; tauto.
Qed.

Lemma map_fst_fold t (ks : list string) :
  forall acc,
    NoDup ks ->
    (forall k, In k ks -> ~ In k (map fst acc) /\ obj_get t k <> None) ->
    map fst
      (fold_left
         (fun acc key =>
            match obj_get t key with
            | Some v => obj_assign acc key v
            | None => acc
            end) ks acc) =
    (map fst acc ++ filter (fun k => negb (String.eqb k "__proto__")) ks)%list.
Proof.
  induction ks as [|k r IH]; intros acc Hnd H; simpl; [now rewrite app_nil_r|].
  inversion Hnd as [|? ? Hk Hr]; subst.
  destruct (H k (or_introl eq_refl)) as [Hfresh Hsome].
  destruct (obj_get t k) as [v|]; [|congruence].
  unfold obj_assign. destruct (String.eqb k "__proto__"); simpl.
  - apply IH; [exact Hr|]. intros k' Hk'. apply H. now right.
  - rewrite IH; [| exact Hr |].
    + rewrite map_fst_obj_set_fresh by exact Hfresh. now rewrite <- app_assoc.
    + intros k' Hk'. split; [|apply H; now right].
      rewrite map_fst_obj_set_fresh by exact Hfresh. rewrite in_app_iff.
      intros [Hin|[->|[]]]; [|contradiction].
      destruct (H k' (or_intror Hk')) as [Hf _]. now apply Hf.
Qed.

(** The properties of the sorted object are created in the sorted order of
    the keys, [__proto__] left out. *)
Lemma map_fst_sortedObj t :
  NoDup (map fst t) ->
  map fst (sortedObj t) =
  filter (fun k => negb (String.eqb k "__proto__")) (sort String.leb (Object_keys t)).
Proof.
  intros Hnd. unfold sortedObj. rewrite map_fst_fold; [reflexivity | |].
  - eapply Permutation_NoDup; [|exact Hnd].
    rewrite <- (sort_perm String.leb). symmetry. apply Object_keys_perm_keys.
  - intros k Hk. split; [tauto|]. rewrite obj_get_None. intros Hn. apply Hn.
    apply In_Object_keys. eapply Permutation_in; [symmetry; apply sort_perm | exact Hk].
Qed.

Lemma map_fst_filter_keys (P : string -> bool) t :
  map fst (filter (fun kv => P (fst kv)) t) = filter P (map fst t).
Proof.
  induction t as [|kv r IH]; [reflexivity|]. simpl.
  destruct (P (fst kv)); simpl; now rewrite IH.
Qed.

(** Leaving properties out of an object leaves their keys out of the keys of
    the sorted object and keeps the order of the others. *)
Lemma Object_keys_sortedObj_filter (P : string -> bool) t :
  NoDup (map fst t) ->
  Object_keys (sortedObj (filter (fun kv => P (fst kv)) t)) =
  filter P (Object_keys (sortedObj t)).
Proof.
  intros Hnd. rewrite !Object_keys_orderedKeys.
  rewrite !map_fst_sortedObj; [| exact Hnd |].
  - rewrite !Object_keys_orderedKeys, map_fst_filter_keys.
    rewrite (orderedKeys_filter P (map fst t)).
    rewrite <- (filter_sort String.leb P String.leb_total string_leb_trans).
    rewrite (filter_comm P). apply orderedKeys_filter.
  - rewrite map_fst_filter_keys. now apply NoDup_filter.
Qed.

(** No key of the sorted object is [__proto__]. *)
Lemma Object_keys_sortedObj_proto t k :
  In k (Object_keys (sortedObj t)) -> k <> "__proto__".
Proof.
  intros Hin ->. apply In_Object_keys in Hin.
  pose proof (obj_get_sortedObj_proto t) as H. now apply obj_get_None in H.
Qed.

Lemma obj_get_filter_keys (P : string -> bool) t k :
  obj_get (filter (fun kv => P (fst kv)) t) k = if P k then obj_get t k else None.
Proof.
  induction t as [|[k' v] r IH]; simpl; [now destruct (P k)|].
  destruct (P k') eqn:E; simpl.
  - destruct (String.eqb_spec k' k) as [->|Hne]; [now rewrite E | exact IH].
  - destruct (String.eqb_spec k' k) as [->|Hne]; [now rewrite IH, E | exact IH].
Qed.
End SortedKeys.

(** ** Objects with the same texts have the same canonical form *)

Lemma textOf_defined (t : list (string * option string)) (k : string) :
  k <> "__proto__" -> textOf (defined t) k = textOf t k.
Proof.
  intros Hk. unfold defined, textOf at 1. rewrite obj_get_filter_keys.
  unfold hasText, textOf.
  destruct (String.eqb_spec k "__proto__"); [contradiction|].
  now destruct (obj_get t k) as [[s|]|].
Qed.

(** Properties that hold [undefined] do not show in the members, and neither
    does a property [__proto__]. *)
Lemma memberPairs_defined (t : list (string * option string)) :
  NoDup (map fst t) ->
  memberPairs (sortedObj (defined t)) = memberPairs (sortedObj t).
Proof.
  intros Hnd. unfold memberPairs, defined.
  rewrite (Object_keys_sortedObj_filter (hasText t) t Hnd).
  pose proof (Object_keys_sortedObj_proto t) as Hproto.
  induction (Object_keys (sortedObj t)) as [|k ks IH]; [reflexivity|]. simpl.
  rewrite <- IH by (intros k' Hk'; apply Hproto; now right).
  assert (k <> "__proto__") as Hne by (apply Hproto; now left).
  pose proof (textOf_defined t k Hne) as Hk.
  rewrite <- (textOf_sortedObj (defined t) k Hne), <- (textOf_sortedObj t k Hne) in Hk.
  unfold textOf, defined in Hk.
  destruct (hasText t k) eqn:E; simpl.
  - f_equal.
    destruct (obj_get (sortedObj (filter _ t)) k) as [[s|]|],
             (obj_get (sortedObj t) k) as [[s'|]|]; congruence.
  - unfold hasText in E. rewrite <- (textOf_sortedObj t k Hne) in E.
    unfold textOf in E.
    destruct (String.eqb_spec k "__proto__"); [contradiction|].
    now destruct (obj_get (sortedObj t) k) as [[s'|]|].
Qed.

Lemma In_defined (t : list (string * option string)) (k : string) (v : option string) :
  NoDup (map fst t) ->
  (In (k, v) (defined t) <->
   exists s, v = Some s /\ textOf t k = Some s /\ k <> "__proto__").
Proof.
  intros Hnd. unfold defined. rewrite filter_In. simpl. unfold hasText, textOf. split.
  - intros [Hin H]. rewrite (In_obj_get t k v Hnd Hin) in H.
    destruct v as [s|]; [|discriminate]. exists s.
    rewrite (In_obj_get t k (Some s) Hnd Hin).
    destruct (String.eqb_spec k "__proto__"); [discriminate | auto].
  - intros [s [-> [H Hne]]]. destruct (obj_get t k) as [[s'|]|] eqn:E; try discriminate.
    injection H as ->. split; [now apply obj_get_In|].
    now destruct (String.eqb_spec k "__proto__").
Qed.

Lemma NoDup_defined (t : list (string * option string)) :
  NoDup (map fst t) -> NoDup (map fst (defined t)).
Proof.
  intros Hnd. unfold defined. rewrite map_fst_filter_keys. now apply NoDup_filter.
Qed.

Lemma memberPairs_of_texts (t1 t2 : list (string * option string)) :
  NoDup (map fst t1) -> NoDup (map fst t2) ->
  (forall k, k <> "__proto__" -> textOf t1 k = textOf t2 k) ->
  memberPairs (sortedObj t1) = memberPairs (sortedObj t2).
Proof.
  intros H1 H2 Htext.
  rewrite <- (memberPairs_defined t1 H1), <- (memberPairs_defined t2 H2).
  f_equal. apply sortedObj_perm; [now apply NoDup_defined|].
  apply NoDup_Permutation.
  - eapply NoDup_map_inv. now apply NoDup_defined.
  - eapply NoDup_map_inv. now apply NoDup_defined.
  - intros [k v]. rewrite !In_defined by assumption.
    split; intros [s [-> [H Hne]]]; exists s; (split; [reflexivity|]);
      (split; [|exact Hne]); rewrite <- H; [symmetry|]; now apply Htext.
Qed.

Lemma textOf_serialised (props : list (string * JsVal)) (k : string) :
  textOf (map (fun kv => (fst kv, SerializeJSONProperty (snd kv))) props) k =
  textAt props k.
Proof.
  unfold textOf, textAt. rewrite (obj_get_onValues SerializeJSONProperty).
  destruct (obj_get props k) as [v|]; simpl; [|reflexivity].
  now destruct (SerializeJSONProperty v).
Qed.

Lemma same_texts_of_canonical_form (o1 o2 : list (string * JsVal)) :
  stableStringify (JObj o1) = stableStringify (JObj o2) ->
  forall k, k <> "__proto__" -> textAt o1 k = textAt o2 k.
Proof.
  rewrite !stableStringify_object. intros H k Hk.
  rewrite <- (textOf_serialised o1 k), <- (textOf_serialised o2 k).
  rewrite <- (textOf_sortedObj _ k Hk), <- (textOf_sortedObj (map _ o2) k Hk).
  now apply SerializeJSONObject_inj; try apply object_members_Serialised.
Qed.

Lemma canonical_form_of_same_texts (o1 o2 : list (string * JsVal)) :
  NoDup (map fst o1) -> NoDup (map fst o2) ->
  (forall k, k <> "__proto__" -> textAt o1 k = textAt o2 k) ->
  stableStringify (JObj o1) = stableStringify (JObj o2).
Proof.
  intros H1 H2 H. rewrite !stableStringify_object.
  apply SerializeJSONObject_of_pairs. apply memberPairs_of_texts.
  - now rewrite map_fst_serialised.
  - now rewrite map_fst_serialised.
  - intros k Hk. rewrite !textOf_serialised. now apply H.
Qed.

(** X1.  Two objects have the same canonical form exactly when they hold, under
    every key but [__proto__], values of the same serialised text; a key that
    is absent and a key that holds [undefined] count alike, and what a
    property [__proto__] holds has no part in the canonical form. *)
Theorem canonical_form_iff_same_texts (o1 o2 : list (string * JsVal)) :
  distinct (map fst o1) = true ->
  distinct (map fst o2) = true ->
  (stableStringify (JObj o1) = stableStringify (JObj o2) <->
   forall k, k <> "__proto__" -> textAt o1 k = textAt o2 k).
Proof.
  intros H1 H2. apply distinct_NoDup in H1, H2. split.
  - apply same_texts_of_canonical_form.
  - now apply canonical_form_of_same_texts.
Qed.

(** ** More about canonical forms *)

(** X3.  An array and the object that holds its elements under their indices
    have the same canonical form, and name the same channel. *)
Theorem array_is_canonicalised_as_index_object
    (sha256 : string -> string) (q : string) (elems : list JsVal) :
  stableStringify (JArr elems) = stableStringify (JObj (arrayProps elems)) /\
  getRpcChannelName sha256 q (JArr elems) =
    getRpcChannelName sha256 q (JObj (arrayProps elems)).
Proof.
  assert (stableStringify (JArr elems) = stableStringify (JObj (arrayProps elems))) as H.
  { rewrite stableStringify_object. unfold stableStringify, JSON_stringify. simpl.
    now rewrite (arrayProps_map SerializeJSONProperty). }
  split; [exact H|]. unfold getRpcChannelName. cbn [nullish]. now rewrite H.
Qed.

Lemma obj_get_app {A : Type} (a b : list (string * A)) (k : string) :
  obj_get (a ++ b)%list k =
  match obj_get a k with
  | Some v => Some v
  | None => obj_get b k
  end.
Proof.
  induction a as [|[k' v] r IH]; simpl; [reflexivity|].
  now destruct (String.eqb k' k).
Qed.

(** X4.  A property that holds [undefined] can be left out of a params object:
    the canonical form and the channel stay the same. *)
Theorem undefined_property_is_left_out
    (sha256 : string -> string) (q k : string) (before after : list (string * JsVal)) :
  distinct (map fst (before ++ (k, JUndefined) :: after)%list) = true ->
  stableStringify (JObj (before ++ (k, JUndefined) :: after)%list) =
    stableStringify (JObj (before ++ after)%list) /\
  getRpcChannelName sha256 q (JObj (before ++ (k, JUndefined) :: after)%list) =
    getRpcChannelName sha256 q (JObj (before ++ after)%list).
Proof.
  intros Hd.
  assert (stableStringify (JObj (before ++ (k, JUndefined) :: after)%list) =
          stableStringify (JObj (before ++ after)%list)) as H.
  { assert (NoDup (map fst (before ++ (k, JUndefined) :: after)%list)) as Hnd
      by now apply distinct_NoDup.
    rewrite map_app in Hnd. simpl in Hnd.
    apply canonical_form_of_same_texts.
    - rewrite map_app. exact Hnd.
    - rewrite map_app. now apply NoDup_remove_1 in Hnd.
    - intros k'. unfold textAt. rewrite !obj_get_app. simpl.
      destruct (obj_get before k') as [v|]; [reflexivity|].
      destruct (String.eqb_spec k k') as [->|Hne]; [|reflexivity].
      apply NoDup_remove_2 in Hnd. rewrite in_app_iff in Hnd.
      assert (obj_get after k' = None) as ->; [|reflexivity].
      apply obj_get_None. tauto. }
  split; [exact H|]. unfold getRpcChannelName. cbn [nullish]. now rewrite H.
Qed.

(** X29.  A property named [__proto__] has no part in the canonical form: the
    replacer assigns it to a new object, which sets or ignores the prototype
    and creates no property.  A params object with such a property, whatever
    it holds, has the canonical form and the channel of the object without
    it. *)
Theorem proto_property_is_left_out
    (sha256 : string -> string) (q : string) (v : JsVal)
    (before after : list (string * JsVal)) :
  distinct (map fst (before ++ ("__proto__", v) :: after)%list) = true ->
  stableStringify (JObj (before ++ ("__proto__", v) :: after)%list) =
    stableStringify (JObj (before ++ after)%list) /\
  getRpcChannelName sha256 q (JObj (before ++ ("__proto__", v) :: after)%list) =
    getRpcChannelName sha256 q (JObj (before ++ after)%list).
Proof.
  intros Hd.
  assert (stableStringify (JObj (before ++ ("__proto__", v) :: after)%list) =
          stableStringify (JObj (before ++ after)%list)) as H.
  { assert (NoDup (map fst (before ++ ("__proto__", v) :: after)%list)) as Hnd
      by now apply distinct_NoDup.
    rewrite map_app in Hnd. simpl in Hnd.
    apply canonical_form_of_same_texts.
    - rewrite map_app. exact Hnd.
    - rewrite map_app. now apply NoDup_remove_1 in Hnd.
    - intros k' Hk'. unfold textAt. rewrite !obj_get_app.
      change (obj_get (("__proto__", v) :: after) k')
        with (if String.eqb "__proto__" k' then Some v else obj_get after k').
      destruct (obj_get before k') as [w|]; [reflexivity|].
      destruct (String.eqb_spec "__proto__" k') as [E|Hne]; [|reflexivity].
      now subst k'. }
  split; [exact H|]. unfold getRpcChannelName. cbn [nullish]. now rewrite H.
Qed.

(** X5.  With a digest of fixed length, as the hexadecimal one of SHA-256 is, two
    channel names are equal only for the same query name and the same
    digest. *)
Theorem channel_names_of_different_queries_differ
    (sha256 : string -> string) (q1 q2 : string) (p1 p2 : JsVal) :
  String.length (sha256 (stableStringify (nullish p1 (JObj [])))) =
    String.length (sha256 (stableStringify (nullish p2 (JObj [])))) ->
  getRpcChannelName sha256 q1 p1 = getRpcChannelName sha256 q2 p2 ->
  q1 = q2 /\
  sha256 (stableStringify (nullish p1 (JObj []))) =
    sha256 (stableStringify (nullish p2 (JObj []))).
Proof.
  unfold getRpcChannelName. intros Hlen H.
  apply string_app_inv_head in H.
  apply string_app_inv_length in H; [|simpl; now rewrite Hlen].
  destruct H as [-> H]. split; [reflexivity|]. now injection H.
Qed.

(** ** Plain values with the same text are deep-equal *)

Lemma Number_toString_inj (z1 z2 : Z) :
  Number_toString z1 = Number_toString z2 -> z1 = z2.
Proof.
  unfold Number_toString. intros H.
  apply (f_equal NilZero.int_of_string) in H.
  assert (forall z, NilZero.int_of_string (NilZero.string_of_int (Z.to_int z)) =
                    Some (Z.to_int z)) as Hisi.
  { intros z. apply NilZero.isi; destruct z; simpl; try discriminate;
      intros [= E]; now apply Unsigned.to_uint_nonnil in E. }
  rewrite !Hisi in H. injection H as H. now apply to_int_inj.
Qed.

Lemma plain_serialised (v : JsVal) :
  plain v = true -> exists s, SerializeJSONProperty v = Some s.
Proof. destruct v as [| |[]| | | | |]; simpl; try discriminate; eauto. Qed.

Lemma plain_property (props : list (string * JsVal)) (k : string) (v : JsVal) :
  plain (JObj props) = true -> In (k, v) props ->
  k <> "__proto__" /\ plain v = true.
Proof.
  simpl. rewrite forallb_forall. intros H Hin. specialize (H _ Hin). simpl in H.
  apply andb_true_iff in H. destruct H as [Hk Hv]. split; [|exact Hv].
  now destruct (String.eqb_spec k "__proto__").
Qed.

Lemma alignedWith_keys (o1 o2 : list (string * JsVal)) :
  map fst (alignedWith o1 o2) = map fst o1.
Proof. unfold alignedWith. rewrite map_map. now apply map_ext. Qed.

Lemma In_alignedWith (o1 o2 : list (string * JsVal)) (k : string) (v : JsVal) :
  NoDup (map fst o2) ->
  (forall k, In k (map fst o1) <-> In k (map fst o2)) ->
  (In (k, v) (alignedWith o1 o2) <-> In (k, v) o2).
Proof.
  intros Hnd Hkeys. unfold alignedWith. rewrite in_map_iff. split.
  - intros [[k1 v1] [[= -> <-] Hin]].
    assert (In k (map fst o2)) as Hk
      by (apply Hkeys; apply in_map_iff; now exists (k, v1)).
    destruct (obj_get o2 k) as [v2|] eqn:E; [now apply obj_get_In|].
    now apply obj_get_None in E.
  - intros Hin.
    assert (In k (map fst o1)) as Hk
      by (apply Hkeys; apply in_map_iff; now exists (k, v)).
    apply in_map_iff in Hk. destruct Hk as [[k1 v1] [Hk1 Hin1]]. simpl in Hk1. subst k1.
    exists (k, v1). split; [|exact Hin1]. simpl.
    now rewrite (In_obj_get o2 k v Hnd Hin).
Qed.

Lemma textAt_keys (o1 o2 : list (string * JsVal)) :
  plain (JObj o1) = true ->
  (forall k, k <> "__proto__" -> textAt o1 k = textAt o2 k) ->
  forall k, In k (map fst o1) -> In k (map fst o2).
Proof.
  intros Hplain Htext k Hk.
  destruct (obj_get o1 k) as [v|] eqn:E; [|now apply obj_get_None in E].
  destruct (plain_property o1 k v Hplain (obj_get_In _ _ _ E)) as [Hne Hv].
  specialize (Htext k Hne). unfold textAt in Htext. rewrite E in Htext.
  destruct (plain_serialised v Hv) as [s Hs].
  rewrite Hs in Htext.
  destruct (obj_get o2 k) as [w|] eqn:E2; [|discriminate].
  apply obj_get_In in E2. apply in_map_iff. now exists (k, w).
Qed.

Lemma Forall2_map_r {X Y : Type} (R : X -> Y -> Prop) (g : X -> Y) (l : list X) :
  (forall x, In x l -> R x (g x)) -> Forall2 R l (map g l).
Proof.
  induction l as [|x r IH]; intros H; simpl; constructor.
  - apply H. now left.
  - apply IH. intros y Hy. apply H. now right.
Qed.

Lemma Serialize_plain_inj (v : JsVal) :
  forall w,
    plain v = true -> plain w = true ->
    wellFormed v = true -> wellFormed w = true ->
    SerializeJSONProperty v = SerializeJSONProperty w -> deepEqual v w.
Proof.
  induction v as [| |b|z|n|t|elems IH|props IH] using JsVal_induction;
    intros w Hpv Hpw Hwv Hww H; try discriminate;
    destruct w as [| |b'|z'|n'|t'|elems'|props']; try discriminate;
    try (exfalso; simpl in H; try destruct b; try destruct b';
         first [ discriminate H
               | injection H as H; apply (f_equal (fun s => kindOf (s ++ ""))) in H;
                 cbv beta in H;
                 rewrite ?kindOf_number_app, ?kindOf_object_app in H;
                 simpl in H; discriminate H ]).
  - constructor.
  - destruct b, b'; try discriminate; constructor.
  - cbn [SerializeJSONProperty] in H.
    assert (z = z') as -> by (apply Number_toString_inj; congruence). constructor.
  - assert (QuoteJSONString t ++ "" = QuoteJSONString t' ++ "") as H'
      by (cbn [SerializeJSONProperty] in H; congruence).
    apply QuoteJSONString_inj in H'. destruct H' as [-> _]. constructor.
  - simpl in Hwv, Hww.
    apply andb_true_iff in Hwv, Hww. destruct Hwv as [Hd1 Hw1], Hww as [Hd2 Hw2].
    assert (forall k, k <> "__proto__" -> textAt props k = textAt props' k) as Htext.
    { apply same_texts_of_canonical_form.
      unfold stableStringify, JSON_stringify. now rewrite H. }
    apply distinct_NoDup in Hd1, Hd2.
    assert (forall k, In k (map fst props) <-> In k (map fst props')) as Hkeys.
    { intros k. split; apply textAt_keys; try assumption.
      intros k' Hk'. symmetry. now apply Htext. }
    apply de_obj with (o := alignedWith props props').
    + unfold alignedWith. rewrite Forall_forall in IH.
      rewrite forallb_forall in Hw1, Hw2.
      apply Forall2_map_r. intros [k v] Hin. simpl. split; [reflexivity|].
      destruct (plain_property props k v Hpv Hin) as [Hne Hv].
      specialize (Htext k Hne). unfold textAt in Htext.
      rewrite (In_obj_get props k v Hd1 Hin) in Htext.
      destruct (plain_serialised v Hv) as [s Hs].
      destruct (obj_get props' k) as [w|] eqn:E; [|congruence].
      pose proof (obj_get_In _ _ _ E) as Hinw.
      apply (IH _ Hin w);
        [ exact Hv | apply (plain_property props' k w Hpw Hinw)
        | apply (Hw1 _ Hin) | apply (Hw2 _ Hinw) | exact Htext ].
    + apply NoDup_Permutation.
      * eapply NoDup_map_inv. rewrite alignedWith_keys. exact Hd1.
      * eapply NoDup_map_inv. exact Hd2.
      * intros [k v]. now apply In_alignedWith.
Qed.

(** X2.  Two plain parameter objects (objects, strings, numbers, booleans and
    [null] at every level) with the same canonical form are deep-equal: they
    differ at most in the order of object keys. *)
Theorem same_canonical_form_means_deep_equal (o1 o2 : list (string * JsVal)) :
  plain (JObj o1) = true -> plain (JObj o2) = true ->
  wellFormed (JObj o1) = true -> wellFormed (JObj o2) = true ->
  stableStringify (JObj o1) = stableStringify (JObj o2) ->
  deepEqual (JObj o1) (JObj o2).
Proof.
  intros Hp1 Hp2 Hw1 Hw2 H. apply Serialize_plain_inj; try assumption.
  simpl. f_equal. exact H.
Qed.

(** ** Instances *)

Lemma invalidate_recomputes_and_broadcasts_once_witness :
  let raw := JObj [("id", JStr "p7"); ("draft", JBool true)] in
  let parsed := JObj [("id", JStr "p7")] in
  invalidate Demo.plainDigest Demo.socketUp Demo.config "getPost" Demo.getPost raw
    Cases.anyRequest [] =
    (Resolved (Demo.postOf "p7"),
     ([] ++ [CallHandler Query "getPost" parsed;
             CallBroadcast (getRpcChannelName Demo.plainDigest "getPost" parsed)
               "update" (Demo.postOf "p7")])%list).
Proof.
  exact (invalidate_recomputes_and_broadcasts_once
           Demo.plainDigest Demo.socketUp Demo.config "getPost" Demo.getPost
           (JObj [("id", JStr "p7"); ("draft", JBool true)]) (JObj [("id", JStr "p7")])
           (Demo.postOf "p7") Cases.anyRequest []
           eq_refl eq_refl eq_refl eq_refl).
Defined.

Lemma invalidate_transport_failure_witness :
  fst (invalidate Demo.plainDigest Demo.socketDown Demo.config "getPosts" Demo.getPosts
         JUndefined Cases.anyRequest []) =
    Rejected (HTTPException 500 "Failed to broadcast update") /\
  fst (batchInvalidate Demo.plainDigest Demo.socketDown Demo.config "getPosts"
         Demo.getPosts JUndefined Cases.anyRequest []) =
    Rejected (HTTPException 500 "Failed to broadcast update").
Proof.
  exact (invalidate_transport_failure
           Demo.plainDigest Demo.socketDown Demo.config "getPosts" Demo.getPosts
           JUndefined JUndefined (JArr [Demo.postOf "p1"]) Cases.anyRequest []
           (OtherError "down") eq_refl eq_refl eq_refl eq_refl eq_refl).
Defined.

Lemma invalidate_handler_failure_witness :
  invalidate Demo.plainDigest Demo.socketUp Cases.config "getBroken" Cases.getBroken
    JUndefined Cases.anyRequest [] =
    (Rejected (OtherError "db down"), ([] ++ [CallHandler Query "getBroken" JUndefined])%list) /\
  batchInvalidate Demo.plainDigest Demo.socketUp Cases.config "getBroken" Cases.getBroken
    JUndefined Cases.anyRequest [] =
    (Rejected (OtherError "db down"), ([] ++ [CallHandler Query "getBroken" JUndefined])%list).
Proof.
  exact (invalidate_handler_failure
           Demo.plainDigest Demo.socketUp Cases.config "getBroken" Cases.getBroken
           JUndefined JUndefined Cases.anyRequest [] (OtherError "db down")
           eq_refl eq_refl (or_intror (conj eq_refl eq_refl))).
Defined.

Lemma queryFn_without_auth_skips_predicate_witness :
  queryFn Demo.config "getAudit" Demo.getAudit JUndefined Cases.anyRequest false [] =
    (Resolved (JStr "audit"), [CallHandler Query "getAudit" JUndefined]).
Proof.
  exact (queryFn_without_auth_skips_predicate
           Demo.config "getAudit" Demo.getAudit JUndefined JUndefined
           Cases.anyRequest [] eq_refl eq_refl).
Defined.

Lemma authorization_raise_gives_401_witness :
  queryFn Cases.config "getAudit" Demo.getAudit JUndefined Cases.anyRequest true [] =
    (Rejected (HTTPException 401 "Unauthorized"),
     [CallAuthorization Query "getAudit" JUndefined]) /\
  mutationFn Demo.plainDigest Demo.socketUp Cases.config "lock" Cases.lock JUndefined
    Cases.anyRequest true [] =
    (Rejected (HTTPException 401 "Unauthorized"),
     [CallAuthorization Mutation "lock" JUndefined]).
Proof.
  split.
  - exact (proj1 (authorization_raise_gives_401
                    Demo.plainDigest Demo.socketUp Cases.config)
             "getAudit" Demo.getAudit JUndefined JUndefined Cases.anyRequest []
             (fun _ _ => Returned (Rejected (OtherError "no session")))
             (OtherError "no session") eq_refl eq_refl eq_refl eq_refl eq_refl).
  - exact (proj2 (authorization_raise_gives_401
                    Demo.plainDigest Demo.socketUp Cases.config)
             "lock" Cases.lock JUndefined JUndefined Cases.anyRequest []
             (fun _ _ => Returned (Rejected (OtherError "no session")))
             (OtherError "no session") eq_refl eq_refl eq_refl eq_refl eq_refl).
Defined.

Lemma mutation_handler_failure_starts_no_fan_out_witness :
  mutationFn Demo.plainDigest Demo.socketUp Cases.config "failingWrite"
    Cases.failingWrite JUndefined Cases.anyRequest true [] =
    (Rejected (OtherError "disk full"), [CallHandler Mutation "failingWrite" JUndefined]).
Proof.
  exact (mutation_handler_failure_starts_no_fan_out
           Demo.plainDigest Demo.socketUp Cases.config "failingWrite"
           Cases.failingWrite JUndefined JUndefined Cases.anyRequest true []
           (OtherError "disk full") eq_refl eq_refl eq_refl
           (or_intror (conj eq_refl eq_refl))).
Defined.

Lemma handleRequest_unknown_key_witness :
  handleRequest Demo.plainDigest Demo.socketUp Demo.config
    (mkContext "/rpc/query" "getUsers" JUndefined) [] =
    (Rejected (HTTPException 400 "Unknown query type: getUsers"), []) /\
  handleRequest Demo.plainDigest Demo.socketUp Demo.config
    (mkContext "/rpc/mutation" "getPosts" JUndefined) [] =
    (Rejected (HTTPException 400 "Unknown mutation: getPosts"), []).
Proof.
  split.
  - exact (proj1 (handleRequest_unknown_key
                    Demo.plainDigest Demo.socketUp Demo.config)
             (mkContext "/rpc/query" "getUsers" JUndefined) []
             eq_refl eq_refl eq_refl eq_refl).
  - exact (proj2 (handleRequest_unknown_key
                    Demo.plainDigest Demo.socketUp Demo.config)
             (mkContext "/rpc/mutation" "getPosts" JUndefined) []
             eq_refl eq_refl eq_refl eq_refl eq_refl).
Defined.

Lemma handleRequest_query_is_queryFn_witness :
  handleRequest Demo.plainDigest Demo.socketUp Demo.config
    (mkContext "/api/rpc/query" "getAudit" JUndefined) [] =
    (Rejected (HTTPException 401 "Unauthorized"),
     [CallAuthorization Query "getAudit" JUndefined]).
Proof.
  exact (handleRequest_query_is_queryFn
           Demo.plainDigest Demo.socketUp Demo.config
           (mkContext "/api/rpc/query" "getAudit" JUndefined) Demo.getAudit []
           eq_refl eq_refl).
Defined.

Lemma handleRequest_mutation_response_witness :
  fst (handleRequest Demo.plainDigest Demo.socketUp Cases.config
         (mkContext "/rpc/mutation" "clear" JUndefined) []) =
    Resolved (Some (c_json [("success", JBool true); ("data", JUndefined);
                            ("error", JNull)] 200)).
Proof.
  exact (handleRequest_mutation_response
           Demo.plainDigest Demo.socketUp Cases.config
           (mkContext "/rpc/mutation" "clear" JUndefined) Cases.clear
           JUndefined JNull [] eq_refl eq_refl eq_refl eq_refl eq_refl eq_refl).
Defined.

(** Three elements, the first of which does not validate: each of the other
    two is recomputed and broadcast on its own, and the batch holds the two,
    in their order. *)
Lemma array_target_sends_the_successful_elements_witness :
  let p1 := JObj [("id", JStr "p1")] in
  let p2 := JObj [("id", JStr "p2")] in
  let channel p := getRpcChannelName Demo.plainDigest "getPost" p in
  snd (invalidateEntry Demo.plainDigest Demo.socketUp Demo.config "touch"
         JUndefined (JStr "touched") Cases.anyRequest
         ("getPost", Some (fun _ _ => Returned (Resolved (JArr [JNull; p1; p2])))) []) =
    [CallInvalidateParams "touch" "getPost";
     Concurrently
       [[];
        [CallHandler Query "getPost" p1;
         CallBroadcast (channel p1) "update" (Demo.postOf "p1")];
        [CallHandler Query "getPost" p2;
         CallBroadcast (channel p2) "update" (Demo.postOf "p2")]];
     Concurrently
       [[CallBatchBroadcast [mkBroadcast (channel p1) "update" (Demo.postOf "p1");
                             mkBroadcast (channel p2) "update" (Demo.postOf "p2")]]]].
Proof.
  exact (array_target_sends_the_successful_elements
           Demo.plainDigest Demo.socketUp Demo.config "touch" "getPost" Demo.getPost
           (fun _ _ => Returned (Resolved (JArr [JNull; JObj [("id", JStr "p1")];
                                                 JObj [("id", JStr "p2")]])))
           JUndefined (JStr "touched")
           [JNull; JObj [("id", JStr "p1")]; JObj [("id", JStr "p2")]]
           Cases.anyRequest [] eq_refl eq_refl).
Defined.

Lemma scalar_target_broadcasts_once_witness :
  snd (invalidateEntry Demo.plainDigest Demo.socketUp Demo.config "createPost"
         (JObj []) (Demo.postOf "p2") Cases.anyRequest
         ("getPosts", Some (fun _ _ => Returned (Resolved JUndefined))) []) =
    [CallInvalidateParams "createPost" "getPosts";
     CallHandler Query "getPosts" JUndefined;
     CallBroadcast (getRpcChannelName Demo.plainDigest "getPosts" JUndefined)
       "update" (JArr [Demo.postOf "p1"])].
Proof.
  exact (scalar_target_broadcasts_once
           Demo.plainDigest Demo.socketUp Demo.config "createPost" "getPosts"
           Demo.getPosts (fun _ _ => Returned (Resolved JUndefined))
           (JObj []) (Demo.postOf "p2") JUndefined JUndefined (JArr [Demo.postOf "p1"])
           Cases.anyRequest [] eq_refl eq_refl eq_refl eq_refl eq_refl).
Defined.

Lemma unregistered_target_calls_nothing_witness :
  snd (invalidateEntry Demo.plainDigest Demo.socketUp Demo.config "touch"
         JUndefined (JStr "touched") Cases.anyRequest
         ("missing", Some (fun _ _ => Returned (Resolved (JArr [JNull; JNull])))) []) =
    [CallInvalidateParams "touch" "missing"].
Proof.
  exact (unregistered_target_calls_nothing
           Demo.plainDigest Demo.socketUp Demo.config "touch" "missing"
           (fun _ _ => Returned (Resolved (JArr [JNull; JNull])))
           JUndefined (JStr "touched") (JArr [JNull; JNull]) Cases.anyRequest []
           eq_refl eq_refl).
Defined.


(** [getPosts] is added a second time, with another definition: requests
    reach the second one. *)
Lemma request_reaches_the_query_added_last_witness :
  let config := builtConfig (Builder (addQuery Cases.builder "getPosts" Demo.searchPosts)) in
  handleRequest Demo.plainDigest Demo.socketUp config Cases.anyRequest [] =
    (Resolved (Some (c_json [("data", JArr []);
                             ("channel",
                              JStr (getRpcChannelName Demo.plainDigest "getPosts" JUndefined));
                             ("error", JNull)] 200)),
     [CallHandler Query "getPosts" (JObj [])]).
Proof.
  exact (request_reaches_the_query_added_last
           Demo.plainDigest Demo.socketUp Cases.builder Demo.searchPosts
           Cases.anyRequest [] eq_refl).
Defined.

Lemma handler_falsy_rejection_resolves_null_witness :
  queryFn Cases.oddConfig "getFlaky" Cases.getFlaky JUndefined Cases.anyRequest true [] =
    (Resolved JNull, [CallHandler Query "getFlaky" JUndefined]).
Proof.
  exact (handler_falsy_rejection_resolves_null
           Cases.oddConfig "getFlaky" Cases.getFlaky JUndefined JUndefined
           Cases.anyRequest true [] (ThrownValue JUndefined)
           eq_refl eq_refl eq_refl eq_refl eq_refl).
Defined.

Lemma predicate_falsy_rejection_passes_witness :
  queryFn Cases.oddConfig "getQuiet" Cases.getQuiet JUndefined Cases.anyRequest true [] =
    (Resolved (JStr "quiet"),
     [CallAuthorization Query "getQuiet" JUndefined;
      CallHandler Query "getQuiet" JUndefined]).
Proof.
  exact (predicate_falsy_rejection_passes
           Cases.oddConfig "getQuiet" Cases.getQuiet JUndefined JUndefined
           Cases.anyRequest []
           (fun _ _ => Returned (Rejected (ThrownValue JNull))) (ThrownValue JNull)
           eq_refl eq_refl eq_refl eq_refl eq_refl).
Defined.

Lemma predicate_throw_is_not_caught_witness :
  queryFn Cases.oddConfig "getStrict" Cases.getStrict JUndefined Cases.anyRequest true [] =
    (Rejected (OtherError "no session"),
     [CallAuthorization Query "getStrict" JUndefined]).
Proof.
  exact (predicate_throw_is_not_caught
           Cases.oddConfig "getStrict" Cases.getStrict JUndefined JUndefined
           Cases.anyRequest []
           (fun _ _ => Thrown (OtherError "no session")) (OtherError "no session")
           eq_refl eq_refl eq_refl eq_refl).
Defined.

Lemma inherited_key_is_served_witness :
  handleRequest Demo.plainDigest Demo.socketUp Demo.config
    (mkContext "/rpc/query" "toString" JUndefined) [] =
    (Resolved (Some (c_json [("data", JStr "[object Undefined]");
                             ("channel",
                              JStr (getRpcChannelName Demo.plainDigest "toString" JUndefined));
                             ("error", JNull)] 200)),
     []).
Proof.
  exact (inherited_key_is_served
           Demo.plainDigest Demo.socketUp Demo.config
           (mkContext "/rpc/query" "toString" JUndefined) []
           eq_refl eq_refl eq_refl eq_refl).
Defined.

Lemma canonical_form_iff_same_texts_witness :
  let o1 := [("a", JNum 1); ("b", JUndefined); ("c", JArr [JNum 2])] in
  let o2 := [("c", JObj [("0", JNum 2)]); ("__proto__", JNull); ("a", JNum 1)] in
  stableStringify (JObj o1) = stableStringify (JObj o2) <->
  forall k, k <> "__proto__" -> textAt o1 k = textAt o2 k.
Proof.
  exact (canonical_form_iff_same_texts
           [("a", JNum 1); ("b", JUndefined); ("c", JArr [JNum 2])]
           [("c", JObj [("0", JNum 2)]); ("__proto__", JNull); ("a", JNum 1)]
           eq_refl eq_refl).
Defined.

Lemma undefined_property_is_left_out_witness :
  stableStringify (JObj ([("a", JNum 1)] ++ ("b", JUndefined) :: [("c", JNum 2)])%list) =
    stableStringify (JObj ([("a", JNum 1)] ++ [("c", JNum 2)])%list) /\
  getRpcChannelName Demo.plainDigest "getPosts"
    (JObj ([("a", JNum 1)] ++ ("b", JUndefined) :: [("c", JNum 2)])%list) =
    getRpcChannelName Demo.plainDigest "getPosts"
      (JObj ([("a", JNum 1)] ++ [("c", JNum 2)])%list).
Proof.
  exact (undefined_property_is_left_out Demo.plainDigest "getPosts" "b"
           [("a", JNum 1)] [("c", JNum 2)] eq_refl).
Defined.

Lemma proto_property_is_left_out_witness :
  stableStringify
    (JObj ([("a", JNum 1)] ++ ("__proto__", JObj [("x", JNum 1)]) :: [("c", JNum 2)])%list) =
    stableStringify (JObj ([("a", JNum 1)] ++ [("c", JNum 2)])%list) /\
  getRpcChannelName Demo.plainDigest "getPosts"
    (JObj ([("a", JNum 1)] ++ ("__proto__", JObj [("x", JNum 1)]) :: [("c", JNum 2)])%list) =
    getRpcChannelName Demo.plainDigest "getPosts"
      (JObj ([("a", JNum 1)] ++ [("c", JNum 2)])%list).
Proof.
  exact (proto_property_is_left_out Demo.plainDigest "getPosts" (JObj [("x", JNum 1)])
           [("a", JNum 1)] [("c", JNum 2)] eq_refl).
Defined.

Lemma channel_names_of_different_queries_differ_witness :
  "getPosts" = "getPosts" /\
  Demo.plainDigest (stableStringify (nullish JNull (JObj []))) =
    Demo.plainDigest (stableStringify (nullish (JObj []) (JObj []))).
Proof.
  exact (channel_names_of_different_queries_differ
           Demo.plainDigest "getPosts" "getPosts" JNull (JObj []) eq_refl eq_refl).
Defined.

Lemma same_canonical_form_means_deep_equal_witness :
  deepEqual
    (JObj [("tag", JStr "x"); ("range", JObj [("from", JNum 1); ("to", JNull)])])
    (JObj [("range", JObj [("to", JNull); ("from", JNum 1)]); ("tag", JStr "x")]).
Proof.
  exact (same_canonical_form_means_deep_equal
           [("tag", JStr "x"); ("range", JObj [("from", JNum 1); ("to", JNull)])]
           [("range", JObj [("to", JNull); ("from", JNum 1)]); ("tag", JStr "x")]
           eq_refl eq_refl eq_refl eq_refl eq_refl).
Defined.
